(** * saulify: reading Instapaper spec files ([saulify/sitespec.py])

    A shallow embedding of [parse_specfile], [load_rules] and
    [load_testcases], and the properties of the specification that concern
    them.

    Conventions of the model.
    - A file object is represented by the text its [read()] returns, a
      [string].  Characters are Rocq's [ascii], i.e. code points below 256;
      [str.strip] and [str.splitlines] are modelled with Python 3's tables
      restricted to that range.
    - The generator [parse_specfile] is consumed once and to the end by both
      loaders, so it is modelled by the list of the pairs it yields.
    - A Python dictionary is a [gmap string _]; the values are dynamically
      typed in the source, so each loader gets a small sum type of the
      values it can store.
    - [raise Exception("Invalid spec file")] is the error result
      [Err InvalidSpec]; calling [.append] on a value that is not a list is
      [Err AttributeError]. *)

From Stdlib Require Import Ascii.
From stdpp Require Import gmap strings list fin_maps.

Local Open Scope stdpp_scope.

(** ** Strings *)

Module Str.

(** [str.isspace] for one character (code points below 256). *)
Definition isspace (c : ascii) : bool :=
  match c with
  | "009" | "010" | "011" | "012" | "013"
  | "028" | "029" | "030" | "031" | " " | "133" | "160" => true
  | _ => false
  end%char.

(** The line boundaries of [str.splitlines] other than carriage return,
    which is handled apart because of the pair CR LF. *)
Definition islinebreak (c : ascii) : bool :=
  match c with
  | "010" | "011" | "012" | "028" | "029" | "030" | "133" => true
  | _ => false
  end%char.

Fixpoint lstrip (s : string) : string :=
  match s with
  | EmptyString => EmptyString
  | String c s' => if isspace c then lstrip s' else s
  end.

Fixpoint rstrip (s : string) : string :=
  match s with
  | EmptyString => EmptyString
  | String c s' =>
      match rstrip s' with
      | EmptyString => if isspace c then EmptyString else String c EmptyString
      | r => String c r
      end
  end.

(** [s.strip()] *)
Definition strip (s : string) : string := rstrip (lstrip s).

(** [s.startswith(p)] *)
Fixpoint startswith (s p : string) : bool :=
  match p, s with
  | EmptyString, _ => true
  | String a p', String b s' => if decide (a = b) then startswith s' p' else false
  | String _ _, EmptyString => false
  end.

(** [s.splitlines()]: [cur] holds the characters of the line being read,
    most recent first; no empty last line is produced. *)
Fixpoint splitlines_go (cur : string) (s : string) : list string :=
  match s with
  | EmptyString =>
      match cur with EmptyString => [] | _ => [String.rev cur] end
  | String c s' =>
      if decide (c = "013"%char) then
        match s' with
        | String "010"%char s'' => String.rev cur :: splitlines_go EmptyString s''
        | _ => String.rev cur :: splitlines_go EmptyString s'
        end
      else if islinebreak c then String.rev cur :: splitlines_go EmptyString s'
      else splitlines_go (String c cur) s'
  end.

Definition splitlines (s : string) : list string := splitlines_go EmptyString s.

(** ["\n".join(l)], used to write multi-line inputs. *)
Fixpoint join_lines (l : list string) : string :=
  match l with
  | [] => EmptyString
  | [x] => x
  | x :: l' => x +:+ String "010"%char (join_lines l')
  end.

(** Membership of a character in a string. *)
Fixpoint mem (c : ascii) (s : string) : bool :=
  match s with
  | EmptyString => false
  | String a s' => if decide (a = c) then true else mem c s'
  end.

(** The text before the first occurrence of [c] (all of [s] if there is
    none) and the text after it (if there is one). *)
Fixpoint before (c : ascii) (s : string) : string :=
  match s with
  | EmptyString => EmptyString
  | String a s' => if decide (a = c) then EmptyString else String a (before c s')
  end.

Fixpoint after (c : ascii) (s : string) : option string :=
  match s with
  | EmptyString => None
  | String a s' => if decide (a = c) then Some s' else after c s'
  end.

End Str.

(** ** The line regular expression

    [re.compile("(?P<label>[^#:]+):(?P<content>[^#]+)")] is embedded with
    two matching combinators in continuation-passing style, which give
    Python's backtracking semantics: a greedy [+] first tries to take one
    more character and only on failure hands what it has to the rest of the
    pattern. *)

Module Re.

(** [[^excl]+] as a capturing group: [k] receives the captured text and
    the remaining input; [acc] is the text captured so far, reversed. *)
Fixpoint plus_not {R} (excl : list ascii) (k : string → string → option R)
    (acc : string) (s : string) : option R :=
  match s with
  | EmptyString => None
  | String c s' =>
      if bool_decide (c ∈ excl) then None
      else match plus_not excl k (String c acc) s' with
           | Some r => Some r
           | None => k (String.rev (String c acc)) s'
           end
  end.

(** A literal character. *)
Definition lit {R} (c : ascii) (k : string → option R) (s : string) : option R :=
  match s with
  | String a s' => if decide (a = c) then k s' else None
  | EmptyString => None
  end.

(** [r.match(t)]: anchored at the start of [t], not at its end; the result
    is the pair of the groups [label] and [content]. *)
Definition r_match (t : string) : option (string * string) :=
  plus_not ["#"; ":"]%char
    (λ label, lit ":"%char
       (plus_not ["#"]%char (λ content _, Some (label, content)) EmptyString))
    EmptyString t.

End Re.

(** ** [parse_specfile] *)

(** The body of the loop for one line [t]: what is yielded, if anything. *)
Definition parse_line (t : string) : option (string * string) :=
  match Re.r_match t with
  | Some (label, content) => Some (Str.strip label, Str.strip content)
  | None => None
  end.

Definition parse_specfile (f : string) : list (string * string) :=
  omap parse_line (Str.splitlines f).

(** ** Results and exceptions *)

Inductive exn : Type :=
  | Exception (msg : string)
  | AttributeError.

(** The one error the loaders raise on purpose; the specification calls
    it [InvalidSpec]. *)
Definition InvalidSpec : exn := Exception "Invalid spec file".

Inductive result (A : Type) : Type :=
  | Ok (a : A)
  | Err (e : exn).
Arguments Ok {A} a.
Arguments Err {A} e.

Definition bind {A B} (r : result A) (k : A → result B) : result B :=
  match r with
  | Ok a => k a
  | Err e => Err e
  end.

Notation "'let*' x ':=' r 'in' k" := (bind r (λ x, k))
  (at level 10, x name, r at level 100, k at level 200, only parsing).

(** A [for] loop whose body may raise: the statements after a [raise] and
    the remaining iterations are not run. *)
Fixpoint for_each {S D} (body : S → D → result S) (st : S) (ds : list D) : result S :=
  match ds with
  | [] => Ok st
  | d :: ds' => let* st' := body st d in for_each body st' ds'
  end.

(** ** [load_rules] *)

(** An element of a list stored in [rules]: a content string, or a
    [(find_string, content)] tuple. *)
Inductive elem : Type :=
  | EStr (s : string)
  | EPair (find replace : string).

(** A value stored in [rules]. *)
Inductive value : Type :=
  | VList (l : list elem)
  | VBool (b : bool).

(** [rules[k].append(e)] on a [defaultdict(list)]. *)
Definition rules_append (k : string) (e : elem) (rules : gmap string value)
    : result (gmap string value) :=
  match rules !! k with
  | None => Ok (<[k := VList [e]]> rules)
  | Some (VList l) => Ok (<[k := VList (l ++ [e])]> rules)
  | Some (VBool _) => Err AttributeError
  end.

Definition boolean_props : list string := ["prune"].

(** The truth value of [find_string], which is [None] or a string. *)
Definition truthy (find_string : option string) : bool :=
  match find_string with
  | None => false
  | Some s => negb (bool_decide (s = ""))
  end.

(** One iteration of the loop of [load_rules]; the state is the dictionary
    [rules] and the local variable [find_string]. *)
Definition rules_step (st : gmap string value * option string) (d : string * string)
    : result (gmap string value * option string) :=
  let '(rules, find_string) := st in
  let '(label, content) := d in
  if Str.startswith label "test_" then Ok st
  else if decide (label = "find_string") then Ok (rules, Some content)
  else if decide (label = "replace_string") then
    match find_string with
    | Some fs =>
        if truthy find_string then
          let* rules' := rules_append "find_replace" (EPair fs content) rules in
          Ok (rules', find_string)
        else Err InvalidSpec
    | None => Err InvalidSpec
    end
  else if bool_decide (label ∈ boolean_props) then
    if decide (content = "yes") then Ok (<[label := VBool true]> rules, find_string)
    else if decide (content = "no") then Ok (<[label := VBool false]> rules, find_string)
    else Err InvalidSpec
  else
    let* rules' := rules_append label (EStr content) rules in
    Ok (rules', find_string).

(** The loop of [load_rules] over a list of directives. *)
Definition rules_loop (ds : list (string * string))
    : result (gmap string value * option string) :=
  for_each rules_step (∅, None) ds.

Definition load_rules (f : string) : result (gmap string value) :=
  let* st := rules_loop (parse_specfile f) in Ok st.1.

(** ** [load_testcases] *)

(** A value stored in a test case: the content of the [test_url] line, or a
    list of contents. *)
Inductive tvalue : Type :=
  | TStr (s : string)
  | TList (l : list string).

(** [opencase[k].append(x)] on a [defaultdict(list)]. *)
Definition case_append (k : string) (x : string) (case : gmap string tvalue)
    : result (gmap string tvalue) :=
  match case !! k with
  | None => Ok (<[k := TList [x]]> case)
  | Some (TList l) => Ok (<[k := TList (l ++ [x])]> case)
  | Some (TStr _) => Err AttributeError
  end.

(** One iteration of the loop of [load_testcases]; the state is the list
    [cases], whose last element is the dictionary the loop mutates. *)
Definition cases_step (cases : list (gmap string tvalue)) (d : string * string)
    : result (list (gmap string tvalue)) :=
  let '(label, content) := d in
  if decide (label = "test_url") then
    Ok (cases ++ [<[label := TStr content]> ∅])
  else if Str.startswith label "test_" then
    match last cases with
    | None => Err InvalidSpec
    | Some opencase =>
        let* opencase' := case_append label content opencase in
        Ok (<[Nat.pred (length cases) := opencase']> cases)
    end
  else Ok cases.

Definition cases_loop (ds : list (string * string)) : result (list (gmap string tvalue)) :=
  for_each cases_step [] ds.

Definition load_testcases (f : string) : result (list (gmap string tvalue)) :=
  cases_loop (parse_specfile f).

(** * Vocabulary of the statements *)

(** Strings of whitespace, and the first and last characters of a string,
    to say what [str.strip] returns. *)
Fixpoint all_space (s : string) : bool :=
  match s with
  | EmptyString => true
  | String c s' => Str.isspace c && all_space s'
  end.

Definition first_char (s : string) : option ascii :=
  match s with
  | EmptyString => None
  | String c _ => Some c
  end.

Fixpoint last_char (s : string) : option ascii :=
  match s with
  | EmptyString => None
  | String c EmptyString => Some c
  | String _ s' => last_char s'
  end.

(** The longest prefix of [s] with no character of [excl], and what
    follows it. *)
Fixpoint span_not (excl : list ascii) (s : string) : string :=
  match s with
  | EmptyString => EmptyString
  | String c s' =>
      if bool_decide (c ∈ excl) then EmptyString else String c (span_not excl s')
  end.

Fixpoint drop_not (excl : list ascii) (s : string) : string :=
  match s with
  | EmptyString => EmptyString
  | String c s' => if bool_decide (c ∈ excl) then s else drop_not excl s'
  end.

(** The contents of the directives labelled [l], in file order. *)
Definition contents_of (l : string) (ds : list (string * string)) : list string :=
  (filter (λ d, d.1 = l) ds).*2.

(** The list under [find_replace], empty when the key is absent. *)
Definition find_replace_of (rules : gmap string value) : list elem :=
  match rules !! "find_replace" with
  | Some (VList l) => l
  | _ => []
  end.

Definition is_str (e : elem) : bool :=
  match e with EStr _ => true | EPair _ _ => false end.

Definition is_pair (e : elem) : bool :=
  match e with EPair _ _ => true | EStr _ => false end.

(** The shape of the value under the key [k], given which elements [pe k]
    a list under [k] may hold: a boolean under a boolean property, a list
    under any other key. *)
Definition shaped (pe : string → elem → bool) (k : string) (v : value) : bool :=
  match v with
  | VBool _ => bool_decide (k ∈ boolean_props)
  | VList l => negb (bool_decide (k ∈ boolean_props)) && forallb (pe k) l
  end.

(** Every value of [rules] has its shape. *)
Definition all_shaped (pe : string → elem → bool) (rules : gmap string value) : Prop :=
  map_Forall (λ k v, shaped pe k v = true) rules.

(** The shapes of the specification: pairs only under [find_replace],
    strings only under the other list keys. *)
Definition spec_elem (k : string) (e : elem) : bool :=
  if decide (k = "find_replace") then is_pair e else is_str e.

(** The test directives of one section, as the specification stores them:
    nothing under a label that is not a test label or has no directive, the
    contents in file order otherwise. *)
Definition section_field (l : string) (body : list (string * string)) : option tvalue :=
  if Str.startswith l "test_" then
    match contents_of l body with
    | [] => None
    | xs => Some (TList xs)
    end
  else None.

Definition is_section_record (sec : string * list (string * string))
    (case : gmap string tvalue) : Prop :=
  case !! "test_url" = Some (TStr sec.1) ∧
  ∀ l, l ≠ "test_url" → case !! l = section_field l sec.2.

(** The directives of a list of sections, each opened by its [test_url]. *)
Definition section_directives (secs : list (string * list (string * string)))
    : list (string * string) :=
  secs ≫= λ sec, ("test_url", sec.1) :: sec.2.

(** A string with no whitespace at either end. *)
Definition trimmed (s : string) : Prop :=
  (∀ c, first_char s = Some c → Str.isspace c = false) ∧
  (∀ c, last_char s = Some c → Str.isspace c = false).

(** The characters at which [str.splitlines] breaks a line. *)
Definition is_break (c : ascii) : bool :=
  bool_decide (c = "013"%char) || Str.islinebreak c.

(** Test directives, which [load_rules] skips and [load_testcases] reads. *)
Definition is_test (d : string * string) : bool := Str.startswith d.1 "test_".

(** What makes [load_rules] raise at the directive [d] that follows the
    directives [pre]: a [replace_string] while the last [find_string]
    content is missing or empty, or a boolean property that is neither
    [yes] nor [no]. *)
Definition invalid_at (pre : list (string * string)) (d : string * string) : Prop :=
  d.1 = "replace_string" ∧ truthy (last (contents_of "find_string" pre)) = false ∨
  d.1 ∈ boolean_props ∧ d.2 ≠ "yes" ∧ d.2 ≠ "no".

(** The labels that take the default branch of [load_rules] and have their
    key to themselves. *)
Definition ordinary (l : string) : Prop :=
  Str.startswith l "test_" = false ∧ l ≠ "find_string" ∧ l ≠ "replace_string" ∧
  (l ∉ boolean_props) ∧ l ≠ "find_replace".

(** The shape of a test case: a string under [test_url], non-empty lists
    under other test labels, no other key. *)
Definition case_shaped (case : gmap string tvalue) : Prop :=
  (∃ u, case !! "test_url" = Some (TStr u)) ∧
  ∀ k v, case !! k = Some v → k ≠ "test_url" →
         Str.startswith k "test_" = true ∧ ∃ l, v = TList l ∧ l ≠ [].

(** The list under the key [k], empty when the key is absent. *)
Definition list_at (k : string) (rules : gmap string value) : list elem :=
  match rules !! k with
  | Some (VList l) => l
  | _ => []
  end.

(** [rules'] keeps every key of [rules], with a list that starts with the
    list of [rules], or with a boolean where [rules] has one. *)
Definition rules_extend (rules rules' : gmap string value) : Prop :=
  ∀ k v, rules !! k = Some v →
    match v with
    | VList l => ∃ l', rules' !! k = Some (VList (l ++ l'))
    | VBool _ => ∃ b', rules' !! k = Some (VBool b')
    end.

(** * Properties *)

(** ** The tokenizer *)

Module StrFacts.

Lemma lstrip_spec s :
  ∃ a, s = a +:+ Str.lstrip s ∧ all_space a = true ∧
       ∀ c, first_char (Str.lstrip s) = Some c → Str.isspace c = false.
Proof.
  induction s as [|c s (a & Hs & Ha & Hfirst)]; simpl.
  { by exists EmptyString. }
  destruct (Str.isspace c) eqn:Hc.
  - exists (String c a). split; [by rewrite Hs at 1|]. simpl. by rewrite Hc.
  - exists EmptyString. split; [done|]. split; [done|].
    simpl. by intros ? [= <-].
Qed.

Lemma rstrip_spec s :
  ∃ b, s = Str.rstrip s +:+ b ∧ all_space b = true ∧
       (∀ c, last_char (Str.rstrip s) = Some c → Str.isspace c = false) ∧
       (∀ c, Str.isspace c = false → first_char s = Some c →
             first_char (Str.rstrip s) = Some c).
Proof.
  induction s as [|c s (b & Hs & Hb & Hlast & _)]; simpl.
  { by exists EmptyString. }
  destruct (Str.rstrip s) as [|a r] eqn:Hr.
  - destruct (Str.isspace c) eqn:Hc.
    + exists (String c b). split; [by rewrite Hs at 1|].
      simpl. rewrite Hc. split; [done|]. split; [done|]. by intros ? ? [= <-]; congruence.
    + exists b. split; [by rewrite Hs at 1|]. split; [done|].
      split; [|done]. simpl. by intros ? [= <-].
  - exists b. split; [by rewrite Hs at 1|]. split; [done|]. split; [|done].
    intros c'. by apply Hlast.
Qed.

(** [strip] removes whitespace at both ends, and nothing else. *)
Lemma strip_spec s :
  ∃ a b, s = a +:+ Str.strip s +:+ b ∧ all_space a = true ∧ all_space b = true ∧
         (∀ c, first_char (Str.strip s) = Some c → Str.isspace c = false) ∧
         (∀ c, last_char (Str.strip s) = Some c → Str.isspace c = false).
Proof.
  destruct (lstrip_spec s) as (a & Hs & Ha & Hfirst).
  destruct (rstrip_spec (Str.lstrip s)) as (b & Hl & Hb & Hlast & Hkeep).
  exists a, b. unfold Str.strip. split; [by rewrite <-Hl|].
  do 2 (split; [done|]). split; [|done].
  intros c Hc. destruct (Str.lstrip s) as [|c' l] eqn:Hls; [done|].
  specialize (Hfirst c' eq_refl). rewrite (Hkeep c' Hfirst eq_refl) in Hc.
  by injection Hc as <-.
Qed.

Lemma span_not_nonempty excl s :
  span_not excl s ≠ EmptyString →
  ∃ c s', s = String c s' ∧ c ∉ excl.
Proof.
  destruct s as [|c s']; simpl; [done|].
  case_bool_decide; [done|]. eauto.
Qed.

Lemma span_not_one c s : span_not [c] s = Str.before c s.
Proof.
  induction s as [|a s IH]; simpl; [done|].
  case_bool_decide as Ha; case_decide as Hd; try done.
  - apply list_elem_of_singleton in Ha. congruence.
  - subst a. exfalso. apply Ha. by apply list_elem_of_singleton.
  - by rewrite IH.
Qed.

(** A greedy group whose continuation cannot start at a character the
    group would take: only the longest capture can succeed. *)
Lemma plus_not_longest {R} excl (k : string → string → option R) acc s :
  (∀ g c r, c ∉ excl → k g (String c r) = None) →
  Re.plus_not excl k acc s =
    match span_not excl s with
    | EmptyString => None
    | p => k (String.rev_app acc p) (drop_not excl s)
    end.
Proof.
  intros Hk. revert acc.
  induction s as [|c s IH]; intros acc; simpl; [done|].
  case_bool_decide as Hc; [done|].
  rewrite IH. destruct (span_not excl s) as [|b p] eqn:Hp.
  - destruct s as [|b s]; simpl in *; [done|].
    by case_bool_decide.
  - simpl. destruct (k _ _) eqn:Hres; [done|].
    destruct (span_not_nonempty excl s) as (b' & s' & -> & Hb'); [by rewrite Hp|].
    by apply Hk.
Qed.

(** A greedy group that ends the pattern captures its longest match. *)
Lemma plus_not_last {R} excl (f : string → R) acc s :
  Re.plus_not excl (λ g _, Some (f g)) acc s =
    match span_not excl s with
    | EmptyString => None
    | p => Some (f (String.rev_app acc p))
    end.
Proof.
  revert acc.
  induction s as [|c s IH]; intros acc; simpl; [done|].
  case_bool_decide as Hc; [done|].
  rewrite IH. by destruct (span_not excl s).
Qed.

Lemma not_in_hash_colon (c : ascii) :
  c ∉ ["#"; ":"]%char ↔ c ≠ "#"%char ∧ c ≠ ":"%char.
Proof. rewrite !not_elem_of_cons. pose proof (not_elem_of_nil c). tauto. Qed.

(** The label group stops at a [:] exactly when the line has a [:] with
    no [#] before it; it has then captured the text before that [:]. *)
Lemma drop_not_colon t post :
  drop_not ["#"; ":"]%char t = String ":"%char post ↔
  Str.after ":"%char t = Some post ∧ Str.mem "#"%char (Str.before ":"%char t) = false.
Proof.
  induction t as [|c t IH]; simpl; [by split; [|intros []]|].
  case_bool_decide as Hc.
  - apply elem_of_cons in Hc as [->|Hc].
    + simpl. split; [done|]. intros [_ H]. by repeat (case_decide; simplify_eq/=).
    + apply list_elem_of_singleton in Hc as ->.
      case_decide; [|done]. simpl. split; [by intros [= ->]|by intros [[= ->] _]].
  - apply not_in_hash_colon in Hc as [H1 H2].
    case_decide; [done|]. simpl. case_decide; [done|]. done.
Qed.

Lemma span_not_colon t post :
  drop_not ["#"; ":"]%char t = String ":"%char post →
  span_not ["#"; ":"]%char t = Str.before ":"%char t.
Proof.
  induction t as [|c t IH]; simpl; [done|].
  case_bool_decide as Hc.
  - intros [= -> ->]. by case_decide.
  - apply not_in_hash_colon in Hc as [H1 H2].
    intros H. case_decide; [done|]. by rewrite IH.
Qed.

Lemma drop_not_head excl s :
  drop_not excl s = EmptyString ∨ ∃ c r, drop_not excl s = String c r ∧ c ∈ excl.
Proof.
  induction s as [|c s IH]; simpl; [by left|].
  case_bool_decide; [right; eauto | done].
Qed.

(** What [r.match] returns, in terms of the first [:] and the first [#]. *)
Lemma r_match_Some t l c :
  Re.r_match t = Some (l, c) ↔
  ∃ post, Str.after ":"%char t = Some post ∧
          l = Str.before ":"%char t ∧ c = Str.before "#"%char post ∧
          Str.mem "#"%char l = false ∧ l ≠ EmptyString ∧ c ≠ EmptyString.
Proof.
  unfold Re.r_match. rewrite plus_not_longest; last first.
  { intros g a r Ha. apply not_in_hash_colon in Ha as [_ Ha].
    simpl. by case_decide. }
  destruct (drop_not_head ["#"; ":"]%char t) as [Hd|(a & r & Hd & Ha)].
  - rewrite Hd. split.
    + by destruct (span_not _ t).
    + intros (post & Hpost & -> & _ & Hm & _).
      assert (drop_not ["#"; ":"]%char t = String ":"%char post) as Hd'
        by (by apply drop_not_colon).
      congruence.
  - rewrite Hd. split.
    + destruct (span_not _ t) as [|b p] eqn:Hp; [done|].
      simpl. case_decide as Hcolon; [subst a|done].
      rewrite plus_not_last, span_not_one.
      destruct (Str.before "#"%char r) as [|b' c'] eqn:Hc; [done|].
      intros [= <- <-]. exists r.
      pose proof Hd as Hd'. apply drop_not_colon in Hd' as [Hafter Hmem].
      apply span_not_colon in Hd. rewrite Hd in Hp.
      rewrite Hp in Hmem |- *. by rewrite Hc.
    + intros (post & Hpost & -> & -> & Hm & Hl & Hc).
      assert (drop_not ["#"; ":"]%char t = String ":"%char post) as Hd'
        by (by apply drop_not_colon).
      rewrite Hd' in Hd. injection Hd as <- <-.
      apply span_not_colon in Hd'. rewrite Hd'.
      destruct (Str.before ":"%char t) eqn:?; [done|].
      unfold Re.lit. case_decide; [|done].
      rewrite plus_not_last, span_not_one.
      by destruct (Str.before "#"%char post).
Qed.

End StrFacts.

Section Tokenizer.

Local Abbreviation colon := ":"%char.
Local Abbreviation hash := "#"%char.

(** When one line yields a directive, and which. *)
Lemma parse_line_Some t l c :
  parse_line t = Some (l, c) ↔
  ∃ post, Str.after colon t = Some post ∧
          l = Str.strip (Str.before colon t) ∧
          c = Str.strip (Str.before hash post) ∧
          Str.mem hash (Str.before colon t) = false ∧
          Str.before colon t ≠ EmptyString ∧
          Str.before hash post ≠ EmptyString.
Proof.
  unfold parse_line. split.
  - destruct (Re.r_match t) as [[l' c']|] eqn:Hm; [|done].
    intros [= <- <-].
    apply StrFacts.r_match_Some in Hm as (post & ? & -> & -> & ? & ? & ?).
    by exists post.
  - intros (post & Hpost & -> & -> & Hm & Hl & Hc).
    assert (Re.r_match t = Some (Str.before colon t, Str.before hash post)) as ->; [|done].
    apply StrFacts.r_match_Some. by exists post.
Qed.

(** A [:] with no [#] before it is also a [:] before the first [#]. *)
Lemma colon_before_hash t post :
  Str.after colon t = Some post →
  Str.mem hash (Str.before colon t) = false →
  Str.mem colon (Str.before hash t) = true.
Proof.
  induction t as [|a t IH]; simpl; [done|].
  destruct (decide (a = colon)) as [->|Hc].
  - intros _ _. by simpl.
  - simpl. destruct (decide (a = hash)) as [->|Hh]; [done|].
    simpl. rewrite decide_False by done. auto.
Qed.

(** [C7], as amended.  One line yields a directive exactly when it has a
    [:] with no [#] before it, at least one character before that [:],
    and at least one character between that [:] and the first [#] after
    it (or the end of the line).  Whitespace counts as a character here:
    the label and the content are the two texts trimmed afterwards. *)
Theorem parse_line_yields_iff (t l c : string) :
  parse_line t = Some (l, c) ↔
  ∃ post, Str.after colon t = Some post ∧
          Str.mem hash (Str.before colon t) = false ∧
          Str.before colon t ≠ EmptyString ∧
          Str.before hash post ≠ EmptyString ∧
          l = Str.strip (Str.before colon t) ∧
          c = Str.strip (Str.before hash post).
Proof.
  rewrite parse_line_Some. split; intros (post & ?); exists post; tauto.
Qed.

Lemma parse_line_yields_iff_witness :
  parse_line "find_string:   # note" = Some ("find_string", "").
Proof.
  apply (proj2 (parse_line_yields_iff "find_string:   # note" "find_string" "")).
  exists "   # note". repeat split; try reflexivity; intros H; discriminate H.
Defined.

(** [C7], as stated, fails: a line whose content (or label) is made of
    whitespace only yields a directive with an empty content (or label). *)
Lemma parse_line_empty_parts :
  parse_line "prune: " = Some ("prune", "") ∧
  parse_line " : x" = Some ("", "x") ∧
  ¬ (∀ t l c, parse_line t = Some (l, c) → l ≠ "" ∧ c ≠ "").
Proof.
  split; [reflexivity|]. split; [reflexivity|].
  intros H. by destruct (H "prune: " "prune" "" eq_refl) as [_ []].
Qed.

(** [C8].  A line that yields a directive is split at its first [:]: the
    label is the trimmed text before it, the content is the trimmed text
    after it up to the first [#], so that the content may hold further
    [:] characters. *)
Theorem parse_line_first_colon :
  (∀ t l c, parse_line t = Some (l, c) →
     ∃ post, Str.after colon t = Some post ∧
             l = Str.strip (Str.before colon t) ∧
             c = Str.strip (Str.before hash post)) ∧
  parse_line "body: //div[@id='a:b'] : c # d: e" = Some ("body", "//div[@id='a:b'] : c") ∧
  parse_line "  strip_id_or_class  :  decoration  # remove decorations"
    = Some ("strip_id_or_class", "decoration").
Proof.
  split; [|by split].
  intros t l c (post & ? & ? & ? & _)%parse_line_Some. by exists post.
Qed.

Lemma parse_line_first_colon_witness :
  ∃ post, Str.after colon "test_url: http://x" = Some post ∧
          "test_url" = Str.strip (Str.before colon "test_url: http://x") ∧
          "http://x" = Str.strip (Str.before hash post).
Proof.
  apply (proj1 parse_line_first_colon "test_url: http://x"). reflexivity.
Defined.

(** [C9].  A line with no [:] before its first [#] yields nothing, and
    [parse_specfile] goes on with the next line; the tokenizer has no
    error result at all. *)
Theorem parse_line_skips (t : string) :
  Str.mem colon (Str.before hash t) = false →
  parse_line t = None ∧
  ∀ f before_t after_t,
    Str.splitlines f = before_t ++ t :: after_t →
    parse_specfile f = omap parse_line before_t ++ omap parse_line after_t.
Proof.
  intros Hno.
  assert (parse_line t = None) as Hnone.
  { destruct (parse_line t) as [[l c]|] eqn:Hp; [|done].
    apply parse_line_Some in Hp as (post & Hafter & _ & _ & Hm & _).
    by rewrite (colon_before_hash t post) in Hno. }
  split; [done|]. intros f l1 l2 Hf. unfold parse_specfile.
  by rewrite Hf, omap_app; simpl; rewrite Hnone.
Qed.

Lemma parse_line_skips_witness :
  parse_line "# strip: //div" = None ∧ parse_line "" = None ∧
  parse_line "no colon here" = None ∧
  parse_specfile (Str.join_lines ["a: b"; "# strip: //div"; "c: d"])
    = [("a", "b"); ("c", "d")].
Proof.
  split; [by apply (parse_line_skips "# strip: //div")|].
  split; [by apply (parse_line_skips "")|].
  split; [by apply (parse_line_skips "no colon here")|].
  by apply (proj2 (parse_line_skips "# strip: //div" eq_refl) _ ["a: b"] ["c: d"]).
Defined.

End Tokenizer.

(** ** Loops that may raise *)

Lemma for_each_app {S D} (body : S → D → result S) st ds1 ds2 :
  for_each body st (ds1 ++ ds2) =
    let* st' := for_each body st ds1 in for_each body st' ds2.
Proof.
  revert st. induction ds1 as [|d ds1 IH]; intros st; simpl; [done|].
  destruct (body st d) as [st'|e]; simpl; [apply IH | done].
Qed.

Lemma for_each_snoc {S D} (body : S → D → result S) st ds d :
  for_each body st (ds ++ [d]) = let* st' := for_each body st ds in body st' d.
Proof.
  rewrite for_each_app. destruct (for_each body st ds) as [st'|e]; simpl; [|done].
  by destruct (body st' d).
Qed.

(** An invariant of the state that every iteration keeps, and under which
    an iteration can only raise [InvalidSpec], holds at the end of the loop,
    and the loop can only raise [InvalidSpec]. *)
Lemma for_each_inv {S D} (I : S → Prop) (P : D → Prop) (body : S → D → result S) :
  (∀ st d, P d → I st →
     match body st d with Ok st' => I st' | Err e => e = InvalidSpec end) →
  ∀ ds st, Forall P ds → I st →
     match for_each body st ds with Ok st' => I st' | Err e => e = InvalidSpec end.
Proof.
  intros Hbody ds. induction ds as [|d ds IH]; intros st Hds Hst; simpl; [done|].
  apply Forall_cons in Hds as [Hd Hds].
  specialize (Hbody st d Hd Hst). destruct (body st d) as [st'|e]; simpl; [|done].
  by apply IH.
Qed.

(** ** [load_rules] *)

(** The loop bodies are unfolded through their branch lemmas only. *)
Arguments rules_step : simpl never.
Arguments cases_step : simpl never.

Section Rules.

Implicit Types (rules : gmap string value) (fs : option string).
Implicit Types (ds : list (string * string)).

Lemma boolean_props_prune label : label ∈ boolean_props ↔ label = "prune".
Proof. unfold boolean_props. apply list_elem_of_singleton. Qed.

(** The branches of [rules_step]. *)
Lemma rules_step_test rules fs label content :
  Str.startswith label "test_" = true →
  rules_step (rules, fs) (label, content) = Ok (rules, fs).
Proof. intros H. unfold rules_step. by rewrite H. Qed.

Lemma rules_step_find rules fs content :
  rules_step (rules, fs) ("find_string", content) = Ok (rules, Some content).
Proof. reflexivity. Qed.

Lemma rules_step_replace rules fs content :
  rules_step (rules, fs) ("replace_string", content) =
    match fs with
    | Some fv =>
        if decide (fv = "") then Err InvalidSpec
        else let* rules' := rules_append "find_replace" (EPair fv content) rules in
             Ok (rules', fs)
    | None => Err InvalidSpec
    end.
Proof.
  destruct fs as [fv|]; [|reflexivity].
  unfold rules_step, truthy. simpl Str.startswith. cbv iota.
  rewrite decide_False by done. rewrite decide_True by done.
  case_bool_decide; by case_decide.
Qed.

Lemma rules_step_bool rules fs label content :
  label ∈ boolean_props →
  rules_step (rules, fs) (label, content) =
    if decide (content = "yes") then Ok (<[label := VBool true]> rules, fs)
    else if decide (content = "no") then Ok (<[label := VBool false]> rules, fs)
    else Err InvalidSpec.
Proof.
  intros Hl. pose proof Hl as ->%boolean_props_prune.
  unfold rules_step. simpl Str.startswith. cbv iota.
  rewrite !decide_False by done. by rewrite bool_decide_eq_true_2.
Qed.

Lemma rules_step_default rules fs label content :
  Str.startswith label "test_" = false →
  label ≠ "find_string" → label ≠ "replace_string" → label ∉ boolean_props →
  rules_step (rules, fs) (label, content) =
    let* rules' := rules_append label (EStr content) rules in Ok (rules', fs).
Proof.
  intros Ht Hf Hr Hb. unfold rules_step. rewrite Ht.
  rewrite !decide_False by done. by rewrite bool_decide_eq_false_2.
Qed.

(** *** Shapes of the stored values *)

Lemma rules_append_shaped pe k e rules :
  k ∉ boolean_props → pe k e = true → all_shaped pe rules →
  ∃ l, rules_append k e rules = Ok (<[k := VList (l ++ [e])]> rules) ∧
       (rules !! k = None ∧ l = [] ∨ rules !! k = Some (VList l)) ∧
       all_shaped pe (<[k := VList (l ++ [e])]> rules).
Proof.
  intros Hk He Hwf. unfold rules_append.
  destruct (rules !! k) as [[l|b]|] eqn:Hlk.
  - exists l. split; [done|]. split; [by right|].
    apply map_Forall_insert_2; [|done].
    specialize (Hwf k _ Hlk). simpl in *.
    apply andb_true_iff in Hwf as [-> Hl]. simpl.
    rewrite forallb_app, Hl. simpl. by rewrite He.
  - specialize (Hwf k _ Hlk). simpl in Hwf.
    by apply bool_decide_eq_true_1 in Hwf.
  - exists []. split; [done|]. split; [by left|].
    apply map_Forall_insert_2; [|done].
    simpl. rewrite He. by rewrite bool_decide_eq_false_2.
Qed.

Lemma find_replace_not_boolean : "find_replace" ∉ boolean_props.
Proof. by rewrite boolean_props_prune. Qed.

Lemma rules_step_shaped pe rules fs d :
  (∀ fv c, pe "find_replace" (EPair fv c) = true) →
  (∀ c, pe d.1 (EStr c) = true) →
  all_shaped pe rules →
  match rules_step (rules, fs) d with
  | Ok st' => all_shaped pe st'.1
  | Err e => e = InvalidSpec
  end.
Proof.
  intros Hpair Hstr Hwf. destruct d as [label content]. simpl in Hstr.
  destruct (Str.startswith label "test_") eqn:Ht.
  { by rewrite rules_step_test. }
  destruct (decide (label = "find_string")) as [->|Hf].
  { by rewrite rules_step_find. }
  destruct (decide (label = "replace_string")) as [->|Hr].
  { rewrite rules_step_replace. destruct fs as [fv|]; [|done].
    case_decide; [done|].
    destruct (rules_append_shaped pe "find_replace" (EPair fv content) rules)
      as (l & -> & _ & Hwf'); auto using find_replace_not_boolean. }
  destruct (decide (label ∈ boolean_props)) as [Hb|Hb].
  { rewrite rules_step_bool by done.
    repeat case_decide; [| |done];
      (apply map_Forall_insert_2; [simpl; by apply bool_decide_eq_true_2|done]). }
  rewrite rules_step_default by done.
  destruct (rules_append_shaped pe label (EStr content) rules)
    as (l & -> & _ & Hwf'); auto.
Qed.

Lemma rules_loop_shaped pe ds :
  (∀ fv c, pe "find_replace" (EPair fv c) = true) →
  Forall (λ d, ∀ c, pe d.1 (EStr c) = true) ds →
  match rules_loop ds with
  | Ok st => all_shaped pe st.1
  | Err e => e = InvalidSpec
  end.
Proof.
  intros Hpair Hds. unfold rules_loop.
  apply (for_each_inv (λ st, all_shaped pe st.1) (λ d, ∀ c, pe d.1 (EStr c) = true));
    [|done|apply map_Forall_empty].
  intros [rules fs] d Hd Hwf. by apply rules_step_shaped.
Qed.

(** The loop raises nothing but [InvalidSpec]: [.append] is only ever
    called on lists. *)
Lemma rules_loop_Err ds e : rules_loop ds = Err e → e = InvalidSpec.
Proof.
  intros H. pose proof (rules_loop_shaped (λ _ _, true) ds) as Hs.
  rewrite H in Hs. apply Hs; [done|]. by apply Forall_forall.
Qed.

Lemma rules_loop_Ok_shaped ds rules fs :
  rules_loop ds = Ok (rules, fs) → all_shaped (λ _ _, true) rules.
Proof.
  intros H. pose proof (rules_loop_shaped (λ _ _, true) ds) as Hs.
  rewrite H in Hs. apply Hs; [done|]. by apply Forall_forall.
Qed.

Lemma load_rules_Err f e : load_rules f = Err e → e = InvalidSpec.
Proof.
  unfold load_rules. destruct (rules_loop _) as [st|e'] eqn:H; [done|].
  intros [= <-]. by apply rules_loop_Err in H.
Qed.

(** *** The pending [find_string] *)

Lemma contents_of_snoc l ds d :
  contents_of l (ds ++ [d]) = contents_of l ds ++ (if decide (d.1 = l) then [d.2] else []).
Proof.
  unfold contents_of. rewrite filter_app, fmap_app. f_equal.
  rewrite filter_cons, filter_nil. by case_decide.
Qed.

Lemma rules_step_pending rules fs label content rules' fs' :
  rules_step (rules, fs) (label, content) = Ok (rules', fs') →
  fs' = if decide (label = "find_string") then Some content else fs.
Proof.
  destruct (Str.startswith label "test_") eqn:Ht.
  { rewrite rules_step_test by done. intros [= <- <-].
    case_decide; [by subst label|done]. }
  destruct (decide (label = "find_string")) as [->|Hf].
  { rewrite rules_step_find. by intros [= <- <-]. }
  destruct (decide (label = "replace_string")) as [->|Hr].
  { rewrite rules_step_replace. destruct fs as [fv|]; [|done].
    case_decide; [done|]. by destruct (rules_append _ _ _); intros [= <- <-]. }
  destruct (decide (label ∈ boolean_props)) as [Hb|Hb].
  { rewrite rules_step_bool by done. by repeat case_decide; intros [= <- <-]. }
  rewrite rules_step_default by done.
  by destruct (rules_append _ _ _); intros [= <- <-].
Qed.

Lemma rules_loop_snoc ds d :
  rules_loop (ds ++ [d]) = let* st := rules_loop ds in rules_step st d.
Proof. apply for_each_snoc. Qed.

(** After the loop, [find_string] holds the content of the last
    [find_string] directive, and [None] if there was none. *)
Lemma rules_loop_pending ds rules fs :
  rules_loop ds = Ok (rules, fs) → fs = last (contents_of "find_string" ds).
Proof.
  revert rules fs. induction ds as [|[label content] ds IH] using rev_ind;
    intros rules fs.
  { by intros [= <- <-]. }
  rewrite rules_loop_snoc, contents_of_snoc.
  destruct (rules_loop ds) as [[rules0 fs0]|] eqn:Hds; [|done]. simpl.
  intros ->%rules_step_pending. rewrite (IH _ _ eq_refl).
  case_decide; [by rewrite last_snoc | by rewrite app_nil_r].
Qed.

(** *** Keys an iteration leaves alone *)

Lemma rules_append_lookup_ne k e rules rules' k' :
  rules_append k e rules = Ok rules' → k' ≠ k → rules' !! k' = rules !! k'.
Proof.
  unfold rules_append. intros H Hne.
  destruct (rules !! k) as [[l|b]|]; simplify_eq; by rewrite lookup_insert_ne.
Qed.

Lemma rules_step_lookup_ne rules fs label content rules' fs' k :
  rules_step (rules, fs) (label, content) = Ok (rules', fs') →
  k ≠ label → k ≠ "find_replace" → rules' !! k = rules !! k.
Proof.
  intros H Hk Hfr. revert H.
  destruct (Str.startswith label "test_") eqn:Ht.
  { rewrite rules_step_test by done. by intros [= <- <-]. }
  destruct (decide (label = "find_string")) as [->|Hf].
  { rewrite rules_step_find. by intros [= <- <-]. }
  destruct (decide (label = "replace_string")) as [->|Hr].
  { rewrite rules_step_replace. destruct fs as [fv|]; [|done].
    case_decide; [done|].
    destruct (rules_append _ _ _) eqn:Ha; intros [= <- <-].
    by eapply rules_append_lookup_ne. }
  destruct (decide (label ∈ boolean_props)) as [Hb|Hb].
  { rewrite rules_step_bool by done.
    by repeat case_decide; intros [= <- <-]; rewrite ?lookup_insert_ne. }
  rewrite rules_step_default by done.
  destruct (rules_append _ _ _) eqn:Ha; intros [= <- <-].
  by eapply rules_append_lookup_ne.
Qed.

Lemma rules_steps_lookup_ne ds st st' k :
  for_each rules_step st ds = Ok st' →
  Forall (λ d, d.1 ≠ k) ds → k ≠ "find_replace" → st'.1 !! k = st.1 !! k.
Proof.
  intros H Hds Hk. revert st H.
  induction Hds as [|[label content] ds Hd Hds IH]; intros [rules fs]; simpl.
  { by intros [= <-]. }
  destruct (rules_step (rules, fs) (label, content))
    as [[rules1 fs1]|] eqn:Hstep; simpl; [|done].
  intros ->%IH. simpl. eapply rules_step_lookup_ne; eauto.
Qed.

(** *** Claims on [load_rules] *)

Lemma load_rules_loop f :
  load_rules f = let* st := rules_loop (parse_specfile f) in Ok st.1.
Proof. reflexivity. Qed.

Lemma load_rules_loop_Err f :
  rules_loop (parse_specfile f) = Err InvalidSpec → load_rules f = Err InvalidSpec.
Proof. intros H. by rewrite load_rules_loop, H. Qed.

(** A [replace_string] directive reached while [find_string] is [None] or
    empty makes the loop raise; so does any earlier error. *)
Lemma rules_loop_replace_unusable pre content post :
  truthy (last (contents_of "find_string" pre)) = false →
  rules_loop (pre ++ ("replace_string", content) :: post) = Err InvalidSpec.
Proof.
  intros Hfalsy. unfold rules_loop. rewrite for_each_app.
  destruct (for_each rules_step (∅, None) pre) as [[rules fs]|e] eqn:Hpre; simpl.
  - apply rules_loop_pending in Hpre as ->.
    rewrite rules_step_replace.
    destruct (last (contents_of "find_string" pre)) as [fv|]; [|done].
    simpl in Hfalsy. apply negb_false_iff, bool_decide_eq_true_1 in Hfalsy.
    by rewrite decide_True.
  - f_equal. by apply rules_loop_Err in Hpre.
Qed.

Lemma contents_of_none l ds : Forall (λ d, d.1 ≠ l) ds → contents_of l ds = [].
Proof.
  intros H. unfold contents_of.
  induction H as [|d ds Hd Hds IH]; [done|].
  by rewrite filter_cons_False.
Qed.

Lemma contents_of_app l ds1 ds2 :
  contents_of l (ds1 ++ ds2) = contents_of l ds1 ++ contents_of l ds2.
Proof. unfold contents_of. by rewrite filter_app, fmap_app. Qed.

Lemma contents_of_cons_eq l c ds : contents_of l ((l, c) :: ds) = c :: contents_of l ds.
Proof. unfold contents_of. by rewrite filter_cons_True. Qed.

(** [C2].  A [replace_string] directive with no [find_string] directive
    before it makes [load_rules] raise [InvalidSpec]; no dictionary is
    returned. *)
Theorem load_rules_replace_without_find :
  (∀ f pre content post,
     parse_specfile f = pre ++ ("replace_string", content) :: post →
     Forall (λ d, d.1 ≠ "find_string") pre →
     load_rules f = Err InvalidSpec) ∧
  load_rules "replace_string: bar" = Err InvalidSpec.
Proof.
  split; [|reflexivity].
  intros f pre content post Hf Hpre.
  apply load_rules_loop_Err. rewrite Hf.
  apply rules_loop_replace_unusable. by rewrite contents_of_none.
Qed.

Lemma load_rules_replace_without_find_witness :
  load_rules (Str.join_lines ["strip: //div"; "replace_string: bar"; "find_string: foo"])
    = Err InvalidSpec.
Proof.
  apply (proj1 load_rules_replace_without_find _
           [("strip", "//div")] "bar" [("find_string", "foo")]).
  - reflexivity.
  - repeat constructor. simpl. intros H. discriminate H.
Defined.

(** [C10].  An empty [find_string] content counts as no [find_string] at
    all: the next [replace_string] directive makes [load_rules] raise
    [InvalidSpec]. *)
Theorem load_rules_empty_find :
  (∀ f pre mid content post,
     parse_specfile f =
       pre ++ ("find_string", "") :: mid ++ ("replace_string", content) :: post →
     Forall (λ d, d.1 ≠ "find_string") mid →
     load_rules f = Err InvalidSpec) ∧
  load_rules (Str.join_lines ["find_string:   # note"; "replace_string: bar"])
    = Err InvalidSpec.
Proof.
  split; [|reflexivity].
  intros f pre mid content post Hf Hmid.
  apply load_rules_loop_Err. rewrite Hf.
  rewrite app_comm_cons, app_assoc.
  apply rules_loop_replace_unusable.
  rewrite contents_of_app, contents_of_cons_eq, (contents_of_none _ mid) by done.
  by rewrite last_snoc.
Qed.

Lemma load_rules_empty_find_witness :
  load_rules (Str.join_lines
    ["find_string: foo"; "# find_string: baz"; "find_string: "; "strip: //div";
     "replace_string: bar"]) = Err InvalidSpec.
Proof.
  apply (proj1 load_rules_empty_find _
           [("find_string", "foo")] [("strip", "//div")] "bar" []).
  - reflexivity.
  - repeat constructor. simpl. intros H. discriminate H.
Defined.







Lemma rules_loop_bool ds rules fs label content :
  rules_loop ds = Ok (rules, fs) → label ∈ boolean_props →
  rules_loop (ds ++ [(label, content)]) =
    if decide (content = "yes") then Ok (<[label := VBool true]> rules, fs)
    else if decide (content = "no") then Ok (<[label := VBool false]> rules, fs)
    else Err InvalidSpec.
Proof. intros H Hl. rewrite rules_loop_snoc, H. simpl. by apply rules_step_bool. Qed.

(** What the loop has stored under a boolean property after it has run
    over a directive for it and then over directives for other labels. *)
Lemma rules_loop_bool_last pre label content post rules fs :
  rules_loop (pre ++ (label, content) :: post) = Ok (rules, fs) →
  label ∈ boolean_props → Forall (λ d, d.1 ≠ label) post →
  content = "yes" ∧ rules !! label = Some (VBool true) ∨
  content = "no" ∧ rules !! label = Some (VBool false).
Proof.
  intros H Hl Hpost. unfold rules_loop in H. rewrite for_each_app in H.
  destruct (for_each rules_step (∅, None) pre) as [[rules1 fs1]|] eqn:Hpre; [|done].
  simpl in H. rewrite rules_step_bool in H by done.
  assert (label ≠ "find_replace") as Hne
    by (apply boolean_props_prune in Hl; by subst label).
  repeat case_decide; [left|right|done]; simpl in H;
    apply rules_steps_lookup_ne with (k := label) in H; try done;
    simpl in H; by rewrite lookup_insert_eq in H.
Qed.

Lemma rules_loop_bool_invalid pre label content post :
  label ∈ boolean_props → content ≠ "yes" → content ≠ "no" →
  rules_loop (pre ++ (label, content) :: post) = Err InvalidSpec.
Proof.
  intros Hl Hyes Hno. unfold rules_loop. rewrite for_each_app.
  destruct (for_each rules_step (∅, None) pre) as [[rules fs]|e] eqn:Hpre; simpl.
  - rewrite rules_step_bool by done. by rewrite !decide_False.
  - f_equal. by apply rules_loop_Err in Hpre.
Qed.

(** [C4].  For a label of [boolean_props]: the content [yes] stores [True]
    under the label and [no] stores [False]; in the dictionary
    [load_rules] returns, the value is that of the last directive for the
    label; any other content makes [load_rules] raise [InvalidSpec]. *)
Theorem load_rules_boolean_props :
  (∀ ds rules fs label,
     rules_loop ds = Ok (rules, fs) → label ∈ boolean_props →
     rules_loop (ds ++ [(label, "yes")]) = Ok (<[label := VBool true]> rules, fs) ∧
     rules_loop (ds ++ [(label, "no")]) = Ok (<[label := VBool false]> rules, fs)) ∧
  (∀ f pre label content post rules,
     parse_specfile f = pre ++ (label, content) :: post →
     label ∈ boolean_props → Forall (λ d, d.1 ≠ label) post →
     load_rules f = Ok rules →
     content = "yes" ∧ rules !! label = Some (VBool true) ∨
     content = "no" ∧ rules !! label = Some (VBool false)) ∧
  (∀ f pre label content post,
     parse_specfile f = pre ++ (label, content) :: post →
     label ∈ boolean_props → content ≠ "yes" → content ≠ "no" →
     load_rules f = Err InvalidSpec) ∧
  load_rules (Str.join_lines ["prune: yes"; "prune: no"]) = Ok {[ "prune" := VBool false ]} ∧
  load_rules "prune: maybe" = Err InvalidSpec.
Proof.
  split.
  { intros ds rules fs label H Hl.
    by rewrite !(rules_loop_bool _ _ _ _ _ H Hl). }
  split.
  { intros f pre label content post rules Hf Hl Hpost.
    rewrite load_rules_loop, Hf.
    destruct (rules_loop _) as [[rules' fs]|] eqn:H; [|done].
    intros [= <-]. by eapply rules_loop_bool_last. }
  split; [|split; vm_compute; reflexivity].
  intros f pre label content post Hf Hl Hyes Hno.
  apply load_rules_loop_Err. rewrite Hf. by apply rules_loop_bool_invalid.
Qed.

Lemma load_rules_boolean_props_witness :
  ("no" = "yes" ∧ ({[ "prune" := VBool false ]} : gmap string value) !! "prune" = Some (VBool true) ∨
   "no" = "no" ∧ ({[ "prune" := VBool false ]} : gmap string value) !! "prune" = Some (VBool false)) ∧
  load_rules (Str.join_lines ["prune: yes"; "prune: on"; "prune: no"]) = Err InvalidSpec.
Proof.
  split.
  - apply (proj1 (proj2 load_rules_boolean_props)
             (Str.join_lines ["prune: yes"; "test_url: u"; "prune: no"; "find_string: x"])
             [("prune", "yes"); ("test_url", "u")] "prune" "no" [("find_string", "x")]).
    + reflexivity.
    + by apply list_elem_of_singleton.
    + repeat constructor. simpl. intros H. discriminate H.
    + vm_compute. reflexivity.
  - apply (proj1 (proj2 (proj2 load_rules_boolean_props)) _
             [("prune", "yes")] "prune" "on" [("prune", "no")]).
    + reflexivity.
    + by apply list_elem_of_singleton.
    + intros H. discriminate H.
    + intros H. discriminate H.
Defined.

(** The shapes the specification gives hold for every file with no
    directive labelled [find_replace]. *)
Lemma load_rules_shapes f rules :
  Forall (λ d, d.1 ≠ "find_replace") (parse_specfile f) →
  load_rules f = Ok rules → all_shaped spec_elem rules.
Proof.
  intros Hf. rewrite load_rules_loop.
  pose proof (rules_loop_shaped spec_elem (parse_specfile f)) as Hs.
  destruct (rules_loop _) as [[rules' fs]|]; [|done].
  intros [= <-]. apply Hs; [done|].
  eapply Forall_impl; [exact Hf|]. intros [label content] Hne c. simpl in *.
  unfold spec_elem. by rewrite decide_False.
Qed.

(** For every file, only the list under [find_replace] may hold both
    pairs and strings. *)
Lemma load_rules_shapes_any f rules :
  load_rules f = Ok rules →
  all_shaped (λ k e, if decide (k = "find_replace") then true else is_str e) rules.
Proof.
  rewrite load_rules_loop.
  pose proof (rules_loop_shaped
    (λ k e, if decide (k = "find_replace") then true else is_str e)
    (parse_specfile f)) as Hs.
  destruct (rules_loop _) as [[rules' fs]|]; [|done].
  intros [= <-]. apply Hs; [done|].
  apply Forall_forall. intros d _ c. by destruct (decide (d.1 = "find_replace")).
Qed.

(** [C1] fails on the code.  A directive labelled [find_replace] takes the
    default branch and appends its content, a string, to the list that
    holds the [(find_string, content)] tuples: the value under
    [find_replace] is then neither a list of pairs nor a list of strings. *)
Theorem load_rules_find_replace_collision :
  load_rules (Str.join_lines ["find_string: a"; "replace_string: b"; "find_replace: x"])
    = Ok {[ "find_replace" := VList [EPair "a" "b"; EStr "x"] ]} ∧
  shaped spec_elem "find_replace" (VList [EPair "a" "b"; EStr "x"]) = false ∧
  ¬ (∀ f rules, load_rules f = Ok rules → all_shaped spec_elem rules).
Proof.
  assert (load_rules
      (Str.join_lines ["find_string: a"; "replace_string: b"; "find_replace: x"])
    = Ok {[ "find_replace" := VList [EPair "a" "b"; EStr "x"] ]}) as Hload
    by (vm_compute; reflexivity).
  split; [done|]. split; [reflexivity|].
  intros H. specialize (H _ _ Hload "find_replace" _ (lookup_singleton_eq _ _)).
  discriminate H.
Qed.

End Rules.

(** ** [load_testcases] *)

Section TestCases.

Implicit Types (cases : list (gmap string tvalue)) (case : gmap string tvalue).
Implicit Types (ds body : list (string * string)).

(** The branches of [cases_step]. *)
Lemma cases_step_url cases content :
  cases_step cases ("test_url", content) = Ok (cases ++ [<["test_url" := TStr content]> ∅]).
Proof. reflexivity. Qed.

Lemma cases_step_test cases label content :
  label ≠ "test_url" → Str.startswith label "test_" = true →
  cases_step cases (label, content) =
    match last cases with
    | None => Err InvalidSpec
    | Some opencase =>
        let* opencase' := case_append label content opencase in
        Ok (<[Nat.pred (length cases) := opencase']> cases)
    end.
Proof. intros Hl Ht. unfold cases_step. by rewrite decide_False, Ht. Qed.

Lemma cases_step_other cases label content :
  Str.startswith label "test_" = false →
  cases_step cases (label, content) = Ok cases.
Proof.
  intros Ht. unfold cases_step. rewrite Ht.
  case_decide; [by subst label|done].
Qed.

(** On a non-empty [cases], a test directive only changes the last case. *)
Lemma cases_step_test_snoc cases case label content :
  label ≠ "test_url" → Str.startswith label "test_" = true →
  cases_step (cases ++ [case]) (label, content) =
    let* case' := case_append label content case in Ok (cases ++ [case']).
Proof.
  intros Hl Ht. rewrite cases_step_test, last_snoc by done.
  destruct (case_append label content case) as [case'|]; simpl; [|done].
  rewrite length_app, Nat.add_1_r. simpl.
  replace (length cases) with (length cases + 0) at 1 by lia.
  by rewrite insert_app_r.
Qed.

Lemma section_field_snoc l body label content :
  section_field l (body ++ [(label, content)]) =
    if decide (label = l) then
      if Str.startswith l "test_" then Some (TList (contents_of l body ++ [content]))
      else None
    else section_field l body.
Proof.
  unfold section_field. rewrite contents_of_snoc. simpl.
  case_decide; [|by rewrite app_nil_r].
  destruct (Str.startswith l "test_"); [|done].
  by destruct (contents_of l body).
Qed.

(** The directives of one section, run from the case its [test_url]
    directive has opened, fill that case and no other. *)
Lemma cases_loop_section_body cases u body :
  Forall (λ d, d.1 ≠ "test_url") body →
  ∃ case, for_each cases_step (cases ++ [<["test_url" := TStr u]> ∅]) body
            = Ok (cases ++ [case]) ∧
          is_section_record (u, body) case.
Proof.
  induction body as [|[label content] body IH] using rev_ind; intros Hbody.
  { eexists. split; [done|]. split; simpl.
    - by rewrite lookup_insert_eq.
    - intros l Hl. rewrite lookup_insert_ne, lookup_empty by done.
      unfold section_field. by destruct (Str.startswith l "test_"). }
  apply Forall_app in Hbody as [Hbody [Hlabel _]%Forall_cons]. simpl in Hlabel.
  destruct (IH Hbody) as (case & Hrun & Hurl & Hfields). simpl in *.
  rewrite for_each_snoc, Hrun. simpl.
  destruct (Str.startswith label "test_") eqn:Ht.
  - rewrite cases_step_test_snoc by done. unfold case_append.
    rewrite (Hfields label Hlabel). unfold section_field. rewrite Ht.
    exists (<[label := TList (contents_of label body ++ [content])]> case).
    split; [by destruct (contents_of label body)|].
    split; simpl.
    + by rewrite lookup_insert_ne.
    + intros l Hl. rewrite section_field_snoc.
      case_decide as Heq.
      * subst l. by rewrite lookup_insert_eq, Ht.
      * rewrite lookup_insert_ne by done. by apply Hfields.
  - rewrite cases_step_other by done. exists case.
    split; [done|]. split; [done|]. simpl.
    intros l Hl. rewrite section_field_snoc.
    case_decide as Heq; [|by apply Hfields].
    subst l. rewrite Ht. rewrite (Hfields label Hlabel).
    unfold section_field. by rewrite Ht.
Qed.

Lemma cases_loop_sections secs cases :
  Forall (λ sec, Forall (λ d, d.1 ≠ "test_url") sec.2) secs →
  ∃ new, for_each cases_step cases (section_directives secs) = Ok (cases ++ new) ∧
         Forall2 is_section_record secs new.
Proof.
  intros Hsecs. revert cases.
  induction Hsecs as [|[u body] secs Hbody Hsecs IH]; intros cases.
  { exists []. by rewrite app_nil_r. }
  unfold section_directives in *. rewrite bind_cons. simpl in *.
  rewrite ?cases_step_url. simpl. rewrite for_each_app.
  destruct (cases_loop_section_body cases u body Hbody) as (case & -> & Hcase).
  simpl. destruct (IH (cases ++ [case])) as (new & -> & Hnew).
  exists (case :: new). split; [by rewrite <-(assoc_L (++))|].
  by constructor.
Qed.

Lemma cases_loop_preamble pre cases :
  Forall (λ d, Str.startswith d.1 "test_" = false) pre →
  for_each cases_step cases pre = Ok cases.
Proof.
  induction 1 as [|[label content] pre Hd Hpre IH]; simpl; [done|].
  by rewrite cases_step_other.
Qed.

(** Every list of directives is made of directives before the first
    [test_url] and of sections. *)
Lemma section_directives_exist ds :
  ∃ pre secs, ds = pre ++ section_directives secs ∧
              Forall (λ d, d.1 ≠ "test_url") pre ∧
              Forall (λ sec, Forall (λ d, d.1 ≠ "test_url") sec.2) secs.
Proof.
  induction ds as [|[label content] ds (pre & secs & -> & Hpre & Hsecs)].
  { exists [], []. by repeat constructor. }
  destruct (decide (label = "test_url")) as [->|Hl].
  - exists [], ((content, pre) :: secs). split; [|by repeat constructor].
    unfold section_directives. by rewrite bind_cons.
  - exists ((label, content) :: pre), secs. by repeat constructor.
Qed.

(** A case is determined by the section it records. *)
Lemma is_section_record_unique sec case1 case2 :
  is_section_record sec case1 → is_section_record sec case2 → case1 = case2.
Proof.
  intros [Hu1 Hf1] [Hu2 Hf2]. apply map_eq. intros l.
  destruct (decide (l = "test_url")) as [->|Hl]; [congruence|].
  by rewrite Hf1, Hf2.
Qed.

Lemma cases_loop_no_url pre :
  Forall (λ d, d.1 ≠ "test_url") pre →
  for_each cases_step [] pre = Ok [] ∨ for_each cases_step [] pre = Err InvalidSpec.
Proof.
  induction 1 as [|[label content] pre Hd Hpre IH]; simpl; [by left|].
  destruct (Str.startswith label "test_") eqn:Ht.
  - rewrite cases_step_test by done. by right.
  - by rewrite cases_step_other.
Qed.

Lemma cases_loop_before_url pre label content post :
  Forall (λ d, d.1 ≠ "test_url") pre →
  Str.startswith label "test_" = true → label ≠ "test_url" →
  for_each cases_step [] (pre ++ (label, content) :: post) = Err InvalidSpec.
Proof.
  intros Hpre Ht Hl. rewrite for_each_app.
  destruct (cases_loop_no_url pre Hpre) as [-> | ->]; [|done].
  simpl. by rewrite cases_step_test.
Qed.

(** [C5].  The directives of a file are the directives before the first
    [test_url] followed by sections, each opened by a [test_url] directive.
    When no test directive comes before the first [test_url],
    [load_testcases] returns one case for each section, in file order; the
    case holds the content of its [test_url] directive as a string and,
    under each other test label, the contents of the directives of its
    section with that label, in file order; it holds nothing else.
    Otherwise [load_testcases] raises [InvalidSpec]. *)
Theorem load_testcases_sections :
  (∀ f pre secs,
     parse_specfile f = pre ++ section_directives secs →
     Forall (λ d, Str.startswith d.1 "test_" = false) pre →
     Forall (λ sec, Forall (λ d, d.1 ≠ "test_url") sec.2) secs →
     ∃ cases, load_testcases f = Ok cases ∧ Forall2 is_section_record secs cases) ∧
  (∀ f, ∃ pre secs,
     parse_specfile f = pre ++ section_directives secs ∧
     Forall (λ d, d.1 ≠ "test_url") pre ∧
     Forall (λ sec, Forall (λ d, d.1 ≠ "test_url") sec.2) secs ∧
     if decide (Forall (λ d, Str.startswith d.1 "test_" = false) pre)
     then ∃ cases, load_testcases f = Ok cases ∧ Forall2 is_section_record secs cases
     else load_testcases f = Err InvalidSpec) ∧
  load_testcases (Str.join_lines ["test_url: http://x"; "test_contains: Hello"])
    = Ok [ <["test_contains" := TList ["Hello"]]> {[ "test_url" := TStr "http://x" ]} ] ∧
  load_testcases (Str.join_lines
    ["test_url: http://x"; "test_contains: Hello"; "strip: //div";
     "test_url: http://y"; "test_contains: A"; "test_contains: B"])
    = Ok [ <["test_contains" := TList ["Hello"]]> {[ "test_url" := TStr "http://x" ]};
           <["test_contains" := TList ["A"; "B"]]> {[ "test_url" := TStr "http://y" ]} ].
Proof.
  assert (∀ f pre secs,
     parse_specfile f = pre ++ section_directives secs →
     Forall (λ d, Str.startswith d.1 "test_" = false) pre →
     Forall (λ sec, Forall (λ d, d.1 ≠ "test_url") sec.2) secs →
     ∃ cases, load_testcases f = Ok cases ∧ Forall2 is_section_record secs cases)
    as Hsections.
  { intros f pre secs Hf Hpre Hsecs. unfold load_testcases, cases_loop.
    rewrite Hf, for_each_app, cases_loop_preamble by done. simpl.
    destruct (cases_loop_sections secs [] Hsecs) as (new & -> & Hnew).
    by exists new. }
  split; [done|]. split; [|split; vm_compute; reflexivity].
  intros f.
  destruct (section_directives_exist (parse_specfile f))
    as (pre & secs & Hf & Hpre & Hsecs).
  exists pre, secs. do 3 (split; [done|]).
  case_decide as Htest; [by eapply Hsections|].
  apply not_Forall_Exists in Htest; [|apply _].
  apply Exists_exists in Htest as ([label content] & Hin & Ht). simpl in Ht.
  apply list_elem_of_split in Hin as (pre1 & pre2 & ->).
  apply Forall_app in Hpre as [Hpre1 [Hl _]%Forall_cons]. simpl in Hl.
  unfold load_testcases, cases_loop.
  rewrite Hf, <-(assoc_L (++)), <-app_comm_cons.
  apply cases_loop_before_url; [done| |done].
  by destruct (Str.startswith label "test_").
Qed.

Lemma load_testcases_sections_witness :
  ∃ cases,
    load_testcases (Str.join_lines
      ["strip: //div"; "test_url: http://x"; "test_contains: Hello"; "prune: no";
       "test_url: http://y"]) = Ok cases ∧
    Forall2 is_section_record
      [("http://x", [("test_contains", "Hello"); ("prune", "no")]); ("http://y", [])]
      cases.
Proof.
  apply (proj1 load_testcases_sections _ [("strip", "//div")]).
  - reflexivity.
  - repeat constructor.
  - repeat constructor; simpl; intros H; discriminate H.
Defined.

(** [C6].  A test directive other than [test_url] with no [test_url]
    directive before it makes [load_testcases] raise [InvalidSpec]. *)
Theorem load_testcases_before_section_start :
  (∀ f pre label content post,
     parse_specfile f = pre ++ (label, content) :: post →
     Forall (λ d, d.1 ≠ "test_url") pre →
     Str.startswith label "test_" = true → label ≠ "test_url" →
     load_testcases f = Err InvalidSpec) ∧
  load_testcases "test_contains: Hello" = Err InvalidSpec.
Proof.
  split; [|reflexivity].
  intros f pre label content post Hf Hpre Ht Hl.
  unfold load_testcases, cases_loop. rewrite Hf.
  by apply cases_loop_before_url.
Qed.

Lemma load_testcases_before_section_start_witness :
  load_testcases (Str.join_lines
    ["strip: //div"; "test_contains: Hello"; "test_url: http://x"]) = Err InvalidSpec.
Proof.
  apply (proj1 load_testcases_before_section_start _
           [("strip", "//div")] "test_contains" "Hello" [("test_url", "http://x")]).
  - reflexivity.
  - repeat constructor. simpl. intros H. discriminate H.
  - reflexivity.
  - intros H. discriminate H.
Defined.

End TestCases.

(** * Further properties *)

(** ** More on the tokenizer *)

Section TokenizerMore.

Local Abbreviation colon := ":"%char.
Local Abbreviation hash := "#"%char.
Local Abbreviation LF := "010"%char.
Local Abbreviation CR := "013"%char.

Lemma before_idem c s : Str.before c (Str.before c s) = Str.before c s.
Proof.
  induction s as [|a s IH]; simpl; [done|].
  case_decide; [done|]. simpl. rewrite decide_False by done. by rewrite IH.
Qed.

Lemma span_not_before_hash t :
  span_not [hash; colon] (Str.before hash t) = span_not [hash; colon] t.
Proof.
  induction t as [|a t IH]; simpl; [done|].
  case_decide as Ha.
  - by subst a.
  - simpl. case_bool_decide; [done|]. by rewrite IH.
Qed.

Lemma drop_not_before_hash t :
  drop_not [hash; colon] (Str.before hash t) =
    match drop_not [hash; colon] t with
    | String c r => if decide (c = colon) then String colon (Str.before hash r) else EmptyString
    | EmptyString => EmptyString
    end.
Proof.
  induction t as [|a t IH]; simpl; [done|].
  case_decide as Ha.
  - by subst a.
  - simpl. case_bool_decide as Hc; [|done].
    apply elem_of_cons in Hc as [->|Hc]; [done|].
    apply list_elem_of_singleton in Hc as ->. by rewrite decide_True.
Qed.

(** [r.match] in closed form. *)
Lemma r_match_closed t :
  Re.r_match t =
    match span_not [hash; colon] t, drop_not [hash; colon] t with
    | String a p, String c r =>
        if decide (c = colon) then
          match Str.before hash r with
          | EmptyString => None
          | q => Some (String a p, q)
          end
        else None
    | _, _ => None
    end.
Proof.
  unfold Re.r_match. rewrite StrFacts.plus_not_longest; last first.
  { intros g a r Ha. apply StrFacts.not_in_hash_colon in Ha as [_ Ha].
    simpl. by case_decide. }
  destruct (span_not _ t) as [|a p]; [done|].
  destruct (drop_not _ t) as [|c r]; [done|].
  unfold Re.lit. case_decide; [|done].
  rewrite StrFacts.plus_not_last, StrFacts.span_not_one.
  by destruct (Str.before hash r).
Qed.

(** [X1].  A comment never changes what a line yields: the line and its
    text before the first [#] yield the same; so do two lines that agree
    before their first [#]. *)
Theorem parse_line_comment_ignored :
  (∀ t, parse_line t = parse_line (Str.before hash t)) ∧
  (∀ t1 t2, Str.before hash t1 = Str.before hash t2 → parse_line t1 = parse_line t2).
Proof.
  assert (∀ t, parse_line t = parse_line (Str.before hash t)) as Hcut.
  { intros t. unfold parse_line. rewrite !r_match_closed.
    rewrite span_not_before_hash, drop_not_before_hash.
    destruct (span_not _ t) as [|a p]; [done|].
    destruct (drop_not _ t) as [|c r]; [done|].
    case_decide as Hc; [|done]. rewrite decide_True by done.
    by rewrite before_idem. }
  split; [done|]. intros t1 t2 H. by rewrite (Hcut t1), (Hcut t2), H.
Qed.

Lemma parse_line_comment_ignored_witness :
  parse_line "strip: //div # one" = parse_line "strip: //div # another: one".
Proof. apply (proj2 parse_line_comment_ignored). reflexivity. Defined.

(** *** Characters of the labels and contents *)

Lemma mem_lstrip d s : Str.mem d (Str.lstrip s) = true → Str.mem d s = true.
Proof.
  induction s as [|c s IH]; simpl; [done|].
  destruct (Str.isspace c); [|done]. intros H. case_decide; auto.
Qed.

Lemma mem_rstrip d s : Str.mem d (Str.rstrip s) = true → Str.mem d s = true.
Proof.
  induction s as [|c s IH]; simpl; [done|].
  destruct (Str.rstrip s) as [|a r].
  - destruct (Str.isspace c); simpl; [done|]. by destruct (decide (c = d)).
  - simpl. destruct (decide (c = d)); [done|]. intros H. apply IH. exact H.
Qed.

Lemma mem_strip d s : Str.mem d (Str.strip s) = true → Str.mem d s = true.
Proof. intros H. by apply mem_lstrip, mem_rstrip. Qed.

Lemma mem_strip_false d s : Str.mem d s = false → Str.mem d (Str.strip s) = false.
Proof.
  intros H. destruct (Str.mem d (Str.strip s)) eqn:Hs; [|done].
  apply mem_strip in Hs. congruence.
Qed.

Lemma mem_before_self c s : Str.mem c (Str.before c s) = false.
Proof.
  induction s as [|a s IH]; simpl; [done|].
  case_decide; [done|]. simpl. by rewrite decide_False.
Qed.

Lemma mem_before d c s : Str.mem d (Str.before c s) = true → Str.mem d s = true.
Proof.
  induction s as [|a s IH]; simpl; [done|].
  case_decide; [done|]. simpl. case_decide; auto.
Qed.

Lemma mem_after d c s post :
  Str.after c s = Some post → Str.mem d post = true → Str.mem d s = true.
Proof.
  induction s as [|a s IH]; simpl; [done|].
  destruct (decide (a = c)).
  - intros [= ->] ->. by case_decide.
  - intros ??. case_decide; auto.
Qed.

Lemma mem_rev_app d a b :
  Str.mem d (String.rev_app a b) = Str.mem d a || Str.mem d b.
Proof.
  revert b. induction a as [|c a IH]; intros b; simpl; [done|].
  rewrite IH. simpl. case_decide; [by rewrite orb_true_r|done].
Qed.

Lemma mem_rev d s : Str.mem d (String.rev s) = Str.mem d s.
Proof. unfold String.rev. rewrite mem_rev_app. simpl. by rewrite orb_false_r. Qed.

(** The two ways [splitlines_go] reads one character. *)
Lemma splitlines_go_cr cur s :
  Str.splitlines_go cur (String CR s) =
    String.rev cur ::
      Str.splitlines_go EmptyString
        (match s with
         | String c s' => if decide (c = LF) then s' else s
         | EmptyString => s
         end).
Proof.
  destruct s as [|c s']; [done|].
  destruct (decide (c = LF)) as [->|Hc]; [done|].
  destruct c as [[] [] [] [] [] [] [] []]; done.
Qed.

Lemma splitlines_go_cons cur c s :
  c ≠ CR →
  Str.splitlines_go cur (String c s) =
    if Str.islinebreak c then String.rev cur :: Str.splitlines_go EmptyString s
    else Str.splitlines_go (String c cur) s.
Proof. intros Hc. simpl. by rewrite decide_False. Qed.

(** A line [splitlines] returns holds none of the characters it breaks at. *)
Lemma splitlines_go_no_break s cur line ch :
  line ∈ Str.splitlines_go cur s → is_break ch = true →
  Str.mem ch cur = false → Str.mem ch line = false.
Proof.
  intros Hin Hch. revert cur Hin.
  induction s as [s IH] using (induction_ltof1 _ String.length).
  unfold ltof in IH. intros cur Hin Hcur.
  destruct s as [|c s].
  { simpl in Hin. destruct cur; [by apply elem_of_nil in Hin|].
    apply list_elem_of_singleton in Hin as ->. by rewrite mem_rev. }
  destruct (decide (c = CR)) as [->|Hc].
  - rewrite splitlines_go_cr in Hin.
    apply elem_of_cons in Hin as [->|Hin]; [by rewrite mem_rev|].
    eapply IH; [|exact Hin|done].
    destruct s as [|c' s']; simpl; [lia|]. case_decide; simpl; lia.
  - rewrite splitlines_go_cons in Hin by done.
    destruct (Str.islinebreak c) eqn:Hb.
    + apply elem_of_cons in Hin as [->|Hin]; [by rewrite mem_rev|].
      eapply IH; [|exact Hin|done]. simpl; lia.
    + eapply IH; [|exact Hin|]; [simpl; lia|].
      simpl. rewrite decide_False; [done|].
      intros ->. unfold is_break in Hch. rewrite Hb, orb_false_r in Hch.
      by apply bool_decide_eq_true_1 in Hch.
Qed.

(** [X2].  Every directive [parse_specfile] yields is clean: the label
    holds no [#] and no [:], the content holds no [#], neither starts or
    ends with whitespace, and neither holds a line break. *)
Theorem parse_specfile_clean (f l c : string) :
  (l, c) ∈ parse_specfile f →
  Str.mem hash l = false ∧ Str.mem colon l = false ∧ Str.mem hash c = false ∧
  trimmed l ∧ trimmed c ∧
  ∀ ch, is_break ch = true → Str.mem ch l = false ∧ Str.mem ch c = false.
Proof.
  unfold parse_specfile. intros (t & Ht & Hp)%list_elem_of_omap.
  apply parse_line_Some in Hp as (post & Hpost & -> & -> & Hhash & _ & _).
  split; [by apply mem_strip_false|].
  split; [apply mem_strip_false, mem_before_self|].
  split; [apply mem_strip_false, mem_before_self|].
  split; [|split].
  - destruct (StrFacts.strip_spec (Str.before colon t)) as (? & ? & _ & _ & _ & ? & ?).
    by split.
  - destruct (StrFacts.strip_spec (Str.before hash post)) as (? & ? & _ & _ & _ & ? & ?).
    by split.
  - intros ch Hch.
    assert (Str.mem ch t = false) as Hline
      by (by eapply splitlines_go_no_break).
    split; apply mem_strip_false.
    + destruct (Str.mem ch (Str.before colon t)) eqn:Hm; [|done].
      apply mem_before in Hm. congruence.
    + destruct (Str.mem ch (Str.before hash post)) eqn:Hm; [|done].
      apply mem_before in Hm. apply (mem_after _ _ _ _ Hpost) in Hm. congruence.
Qed.

Lemma parse_specfile_clean_witness :
  Str.mem hash "body" = false ∧ Str.mem colon "body" = false ∧
  Str.mem hash "//div[@id='a:b']" = false ∧
  trimmed "body" ∧ trimmed "//div[@id='a:b']" ∧
  ∀ ch, is_break ch = true →
        Str.mem ch "body" = false ∧ Str.mem ch "//div[@id='a:b']" = false.
Proof.
  apply (parse_specfile_clean
           (Str.join_lines ["# rules"; "  body :  //div[@id='a:b']   # the body"])).
  vm_compute. by left.
Defined.

(** *** Files put one after the other *)

Lemma string_app_cons c s1 s2 : String c s1 +:+ s2 = String c (s1 +:+ s2).
Proof. reflexivity. Qed.

Lemma parse_lines_cons t ts :
  omap parse_line (t :: ts) =
    match parse_line t with
    | Some d => d :: omap parse_line ts
    | None => omap parse_line ts
    end.
Proof. reflexivity. Qed.

Lemma parse_lines_app cur f1 f2 :
  omap parse_line (Str.splitlines_go cur (f1 +:+ String LF f2)) =
  omap parse_line (Str.splitlines_go cur f1) ++ omap parse_line (Str.splitlines f2).
Proof.
  revert cur. induction f1 as [|c f1 IH]; intros cur.
  { change (EmptyString +:+ String LF f2) with (String LF f2).
    rewrite splitlines_go_cons by done.
    change (Str.islinebreak LF) with true. cbv iota. rewrite parse_lines_cons.
    destruct cur as [|a cur]; [done|].
    change (Str.splitlines_go (String a cur) EmptyString) with [String.rev (String a cur)].
    rewrite parse_lines_cons. by destruct (parse_line _). }
  rewrite string_app_cons.
  destruct (decide (c = CR)) as [->|Hc].
  - rewrite !splitlines_go_cr, !parse_lines_cons.
    assert (omap parse_line (Str.splitlines_go EmptyString
              match f1 +:+ String LF f2 with
              | String c s' => if decide (c = LF) then s' else f1 +:+ String LF f2
              | EmptyString => f1 +:+ String LF f2
              end) =
            omap parse_line (Str.splitlines_go EmptyString
              match f1 with
              | String c s' => if decide (c = LF) then s' else f1
              | EmptyString => f1
              end) ++ omap parse_line (Str.splitlines f2)) as Hrest.
    { destruct f1 as [|c' f1'].
      - change (EmptyString +:+ String LF f2) with (String LF f2). done.
      - rewrite string_app_cons. case_decide as Hc'; [|by rewrite <-string_app_cons].
        subst c'. specialize (IH EmptyString).
        rewrite string_app_cons, !splitlines_go_cons in IH by done.
        exact IH. }
    rewrite Hrest. by destruct (parse_line (String.rev cur)).
  - rewrite !splitlines_go_cons by done.
    destruct (Str.islinebreak c); [|apply IH].
    rewrite !parse_lines_cons, IH. by destruct (parse_line (String.rev cur)).
Qed.

(** [X3].  Tokenizing two texts joined by a newline gives the directives
    of the first followed by those of the second, whether or not the first
    ends with a line break. *)
Theorem parse_specfile_app (f1 f2 : string) :
  parse_specfile (f1 +:+ String LF f2) = parse_specfile f1 ++ parse_specfile f2.
Proof. apply parse_lines_app. Qed.

End TokenizerMore.

(** ** More on [load_rules] *)

Section RulesMore.

Implicit Types (rules : gmap string value) (fs : option string).
Implicit Types (ds : list (string * string)).

Lemma rules_append_Ok k e rules rules' :
  rules_append k e rules = Ok rules' →
  (∀ b, rules !! k ≠ Some (VBool b)) ∧
  rules' = <[k := VList (list_at k rules ++ [e])]> rules.
Proof.
  unfold rules_append, list_at.
  destruct (rules !! k) as [[l|b]|]; intros [= <-]; by split.
Qed.

(** What a successful iteration has done. *)
Lemma rules_step_Ok rules fs label content rules' fs' :
  rules_step (rules, fs) (label, content) = Ok (rules', fs') →
  rules' = rules ∧ (Str.startswith label "test_" = true ∨ label = "find_string") ∨
  (∃ fv, label = "replace_string" ∧ fs = Some fv ∧ fv ≠ "" ∧
         (∀ b, rules !! "find_replace" ≠ Some (VBool b)) ∧
         rules' = <["find_replace" :=
                      VList (list_at "find_replace" rules ++ [EPair fv content])]> rules) ∨
  (∃ b : bool, label ∈ boolean_props ∧ content = (if b then "yes" else "no") ∧
        rules' = <[label := VBool b]> rules) ∨
  (Str.startswith label "test_" = false ∧ label ≠ "find_string" ∧
   label ≠ "replace_string" ∧ (label ∉ boolean_props) ∧
   (∀ b, rules !! label ≠ Some (VBool b)) ∧
   rules' = <[label := VList (list_at label rules ++ [EStr content])]> rules).
Proof.
  destruct (Str.startswith label "test_") eqn:Ht.
  { rewrite rules_step_test by done. intros [= <- <-]. left. auto. }
  destruct (decide (label = "find_string")) as [->|Hf].
  { rewrite rules_step_find. intros [= <- <-]. left. auto. }
  destruct (decide (label = "replace_string")) as [->|Hr].
  { rewrite rules_step_replace. destruct fs as [fv|]; [|done].
    case_decide; [done|].
    destruct (rules_append _ _ _) as [r|] eqn:Ha; intros [= <- <-].
    apply rules_append_Ok in Ha as [? ->]. right; left. by exists fv. }
  destruct (decide (label ∈ boolean_props)) as [Hb|Hb].
  { rewrite rules_step_bool by done.
    repeat case_decide; intros [= <- <-]; right; right; left;
      [exists true|exists false]; by subst. }
  rewrite rules_step_default by done.
  destruct (rules_append _ _ _) as [r|] eqn:Ha; intros [= <- <-].
  apply rules_append_Ok in Ha as [? ->]. by repeat right.
Qed.

Lemma rules_loop_snoc_Ok ds d rules' fs' :
  rules_loop (ds ++ [d]) = Ok (rules', fs') →
  ∃ rules fs, rules_loop ds = Ok (rules, fs) ∧ rules_step (rules, fs) d = Ok (rules', fs').
Proof.
  rewrite rules_loop_snoc. destruct (rules_loop ds) as [[rules fs]|]; [|done].
  simpl. eauto.
Qed.

Lemma load_rules_Ok f rules :
  load_rules f = Ok rules ↔ ∃ fs, rules_loop (parse_specfile f) = Ok (rules, fs).
Proof.
  rewrite load_rules_loop.
  destruct (rules_loop _) as [[rules' fs]|]; simpl; split.
  - intros [= <-]. eauto.
  - by intros [fs' [= <- _]].
  - done.
  - by intros [].
Qed.

(** *** Test directives do not matter *)

Lemma rules_steps_skip_tests st ds :
  for_each rules_step st (filter (λ d, is_test d = false) ds) = for_each rules_step st ds.
Proof.
  revert st. induction ds as [|[label content] ds IH]; intros [rules fs]; [done|].
  destruct (is_test (label, content)) eqn:Ht.
  - rewrite filter_cons_False by (by rewrite Ht). simpl.
    rewrite rules_step_test by done. simpl. apply IH.
  - rewrite filter_cons_True by done. simpl.
    destruct (rules_step _ _); simpl; [apply IH|done].
Qed.

(** [X4].  [load_rules] does not look at test directives: two files with
    the same directives other than test directives give the same result,
    be it a dictionary or an error. *)
Theorem load_rules_ignores_tests (f1 f2 : string) :
  filter (λ d, is_test d = false) (parse_specfile f1)
    = filter (λ d, is_test d = false) (parse_specfile f2) →
  load_rules f1 = load_rules f2.
Proof.
  intros H. rewrite !load_rules_loop. unfold rules_loop.
  by rewrite <-(rules_steps_skip_tests _ (parse_specfile f1)), H, rules_steps_skip_tests.
Qed.

Lemma load_rules_ignores_tests_witness :
  load_rules (Str.join_lines
    ["test_url: http://x"; "strip: //div"; "test_contains: Hello"; "prune: no"])
  = load_rules (Str.join_lines ["strip: //div"; "# nothing to test"; "prune: no"]).
Proof. apply load_rules_ignores_tests. reflexivity. Defined.

(** *** Lists under ordinary labels *)

Lemma list_at_insert k l rules : list_at k (<[k := VList l]> rules) = l.
Proof. unfold list_at. by rewrite lookup_insert_eq. Qed.

Lemma list_at_insert_ne k k' v rules :
  k ≠ k' → list_at k' (<[k := v]> rules) = list_at k' rules.
Proof. intros H. unfold list_at. by rewrite lookup_insert_ne. Qed.

Lemma rules_loop_ordinary ds rules fs l :
  rules_loop ds = Ok (rules, fs) → ordinary l →
  rules !! l = match contents_of l ds with
               | [] => None
               | xs => Some (VList (EStr <$> xs))
               end.
Proof.
  intros H (Ht & Hf & Hr & Hb & Hfr). revert rules fs H.
  induction ds as [|[label content] ds IH] using rev_ind; intros rules' fs'.
  { by intros [= <- <-]. }
  intros (rules & fs & Hds & Hstep)%rules_loop_snoc_Ok.
  specialize (IH _ _ Hds). rewrite contents_of_snoc. cbn [fst snd].
  destruct (decide (label = l)) as [->|Hne].
  - apply rules_step_Ok in Hstep
      as [[_ [?|?]]|[(? & ? & _)|[(? & ? & _)|(_ & _ & _ & _ & _ & ->)]]]; try congruence.
    rewrite lookup_insert_eq. unfold list_at. rewrite IH.
    destruct (contents_of l ds) as [|x xs]; [done|].
    by rewrite <-app_comm_cons, !fmap_cons, fmap_app.
  - rewrite app_nil_r, <-IH.
    eapply rules_step_lookup_ne; [exact Hstep|done..].
Qed.

(** [X5].  For a label that takes the default branch (not a test label,
    not [find_string], [replace_string] or a boolean property) and is not
    [find_replace], the dictionary [load_rules] returns has no entry when the
    file has no directive with the label, and otherwise the list of the
    contents of these directives, in file order. *)
Theorem load_rules_ordinary (f : string) (rules : gmap string value) (l : string) :
  load_rules f = Ok rules → ordinary l →
  rules !! l = match contents_of l (parse_specfile f) with
               | [] => None
               | xs => Some (VList (EStr <$> xs))
               end.
Proof. intros [fs H]%load_rules_Ok Hl. by eapply rules_loop_ordinary. Qed.

Lemma load_rules_ordinary_witness :
  ({[ "strip" := VList [EStr "//div"; EStr "//span"] ]} : gmap string value) !! "strip"
    = Some (VList [EStr "//div"; EStr "//span"]) ∧
  ({[ "strip" := VList [EStr "//div"; EStr "//span"] ]} : gmap string value) !! "title"
    = None.
Proof.
  split.
  - apply (load_rules_ordinary
             (Str.join_lines ["strip: //div"; "test_url: u"; "strip: //span"])).
    + vm_compute. reflexivity.
    + repeat split; try (intros H; discriminate H).
      intros H%boolean_props_prune. discriminate H.
  - apply (load_rules_ordinary
             (Str.join_lines ["strip: //div"; "test_url: u"; "strip: //span"])).
    + vm_compute. reflexivity.
    + repeat split; try (intros H; discriminate H).
      intros H%boolean_props_prune. discriminate H.
Defined.

(** *** The keys of the dictionary *)

Lemma rules_loop_keys ds rules fs k v :
  rules_loop ds = Ok (rules, fs) → rules !! k = Some v →
  Str.startswith k "test_" = false ∧ k ≠ "find_string" ∧ k ≠ "replace_string" ∧
  (k ∈ ds.*1 ∨ k = "find_replace" ∧ "replace_string" ∈ ds.*1) ∧
  v ≠ VList [].
Proof.
  revert rules fs v.
  induction ds as [|[label content] ds IH] using rev_ind; intros rules' fs' v.
  { intros [= <- <-]. by rewrite lookup_empty. }
  intros (rules & fs & Hds & Hstep)%rules_loop_snoc_Ok Hk.
  assert (∀ v, rules !! k = Some v →
    Str.startswith k "test_" = false ∧ k ≠ "find_string" ∧ k ≠ "replace_string" ∧
    (k ∈ (ds ++ [(label, content)]).*1 ∨
     k = "find_replace" ∧ "replace_string" ∈ (ds ++ [(label, content)]).*1) ∧
    v ≠ VList []) as IH'.
  { intros v' Hv'. destruct (IH _ _ _ Hds Hv') as (? & ? & ? & Hin & ?).
    repeat split; try done. rewrite fmap_app, !elem_of_app.
    destruct Hin as [?|[? ?]]; auto. }
  assert (label ∈ (ds ++ [(label, content)]).*1) as Hlabel.
  { rewrite fmap_app, elem_of_app. right. by apply list_elem_of_singleton. }
  apply rules_step_Ok in Hstep
    as [[-> _]|[(fv & -> & _ & _ & _ & ->)|[(b & Hb & _ & ->)|(? & ? & ? & ? & _ & ->)]]].
  - by apply IH'.
  - destruct (decide (k = "find_replace")) as [->|Hne].
    + rewrite lookup_insert_eq in Hk. injection Hk as <-.
      repeat split; try done; [by right|].
      intros [= Hnil]. by apply app_eq_nil in Hnil as [_ ?].
    + rewrite lookup_insert_ne in Hk by done. by apply IH'.
  - destruct (decide (k = label)) as [->|Hne].
    + rewrite lookup_insert_eq in Hk. injection Hk as <-.
      pose proof Hb as Hp%boolean_props_prune. subst label.
      repeat split; try done. by left.
    + rewrite lookup_insert_ne in Hk by done. by apply IH'.
  - destruct (decide (k = label)) as [->|Hne].
    + rewrite lookup_insert_eq in Hk. injection Hk as <-.
      repeat split; try done; [by left|].
      intros [= Hnil]. by apply app_eq_nil in Hnil as [_ ?].
    + rewrite lookup_insert_ne in Hk by done. by apply IH'.
Qed.

(** [X6].  A key of the dictionary [load_rules] returns is never a test
    label, [find_string] or [replace_string]; it is the label of a
    directive of the file, or [find_replace] in a file with a
    [replace_string] directive; and no list in the dictionary is empty. *)
Theorem load_rules_keys (f : string) (rules : gmap string value) (k : string) (v : value) :
  load_rules f = Ok rules → rules !! k = Some v →
  Str.startswith k "test_" = false ∧ k ≠ "find_string" ∧ k ≠ "replace_string" ∧
  (k ∈ (parse_specfile f).*1 ∨
   k = "find_replace" ∧ "replace_string" ∈ (parse_specfile f).*1) ∧
  v ≠ VList [].
Proof. intros [fs H]%load_rules_Ok. by eapply rules_loop_keys. Qed.

Lemma load_rules_keys_witness :
  Str.startswith "find_replace" "test_" = false ∧
  "find_replace" ≠ "find_string" ∧ "find_replace" ≠ "replace_string" ∧
  ("find_replace" ∈ [("find_string", "foo"); ("replace_string", "bar")].*1 ∨
   "find_replace" = "find_replace" ∧
   "replace_string" ∈ [("find_string", "foo"); ("replace_string", "bar")].*1) ∧
  VList [EPair "foo" "bar"] ≠ VList [].
Proof.
  apply (load_rules_keys
           (Str.join_lines ["find_string: foo"; "replace_string: bar"])
           {[ "find_replace" := VList [EPair "foo" "bar"] ]}).
  - vm_compute. reflexivity.
  - vm_compute. reflexivity.
Defined.

(** *** When [load_rules] raises *)

Lemma rules_step_Err rules fs label content e :
  all_shaped (λ _ _, true) rules →
  rules_step (rules, fs) (label, content) = Err e →
  label = "replace_string" ∧ truthy fs = false ∨
  label ∈ boolean_props ∧ content ≠ "yes" ∧ content ≠ "no".
Proof.
  intros Hwf.
  destruct (Str.startswith label "test_") eqn:Ht.
  { by rewrite rules_step_test. }
  destruct (decide (label = "find_string")) as [->|Hf].
  { by rewrite rules_step_find. }
  destruct (decide (label = "replace_string")) as [->|Hr].
  { rewrite rules_step_replace. destruct fs as [fv|]; [|by left].
    case_decide as Hfv.
    - intros _. left. split; [done|]. simpl. by rewrite bool_decide_eq_true_2.
    - destruct (rules_append_shaped (λ _ _, true) "find_replace" (EPair fv content) rules)
        as (l & -> & _); auto using find_replace_not_boolean. done. }
  destruct (decide (label ∈ boolean_props)) as [Hb|Hb].
  { rewrite rules_step_bool by done. repeat case_decide; try done. by right. }
  rewrite rules_step_default by done.
  destruct (rules_append_shaped (λ _ _, true) label (EStr content) rules)
    as (l & -> & _); auto. done.
Qed.

Lemma rules_loop_Err_iff ds :
  rules_loop ds = Err InvalidSpec ↔
  ∃ pre d post, ds = pre ++ d :: post ∧ invalid_at pre d.
Proof.
  split.
  - induction ds as [|[label content] ds IH] using rev_ind; [done|].
    rewrite rules_loop_snoc.
    destruct (rules_loop ds) as [[rules fs]|e] eqn:Hds; simpl.
    + intros Hstep. exists ds, (label, content), []. split; [done|].
      apply rules_step_Err in Hstep; [|by eapply rules_loop_Ok_shaped].
      apply rules_loop_pending in Hds as ->. exact Hstep.
    + intros [= ->]. destruct (IH eq_refl) as (pre & d & post & -> & Hbad).
      exists pre, d, (post ++ [(label, content)]).
      by rewrite <-(assoc_L (++)).
  - intros (pre & [label content] & post & -> & [[Hl Hfs]|(Hl & Hyes & Hno)]);
      simpl in *.
    + subst label. by apply rules_loop_replace_unusable.
    + by apply rules_loop_bool_invalid.
Qed.

(** [X7].  [load_rules] raises exactly when the file has a
    [replace_string] directive at which the last [find_string] content is
    missing or empty, or a boolean property whose content is neither [yes]
    nor [no]; in every other case it returns a dictionary. *)
Theorem load_rules_raises_iff (f : string) :
  (load_rules f = Err InvalidSpec ↔
   ∃ pre d post, parse_specfile f = pre ++ d :: post ∧ invalid_at pre d) ∧
  ((∃ rules, load_rules f = Ok rules) ↔
   ¬ ∃ pre d post, parse_specfile f = pre ++ d :: post ∧ invalid_at pre d).
Proof.
  assert (load_rules f = Err InvalidSpec ↔
          ∃ pre d post, parse_specfile f = pre ++ d :: post ∧ invalid_at pre d) as Herr.
  { rewrite <-rules_loop_Err_iff, load_rules_loop.
    destruct (rules_loop _) as [st|e]; simpl; [done|].
    split; by intros [= ->]. }
  split; [done|]. rewrite <-Herr. split.
  - intros [rules ->]. done.
  - intros Hne. destruct (load_rules f) as [rules|e] eqn:Hload; [by eexists|].
    pose proof (load_rules_Err _ _ Hload) as ->. done.
Qed.

Lemma load_rules_raises_iff_witness :
  load_rules (Str.join_lines ["strip: //div"; "find_string: "; "replace_string: bar"])
    = Err InvalidSpec.
Proof.
  apply (proj1 (load_rules_raises_iff _)).
  exists [("strip", "//div"); ("find_string", "")], ("replace_string", "bar"), [].
  split; [reflexivity|]. left. split; reflexivity.
Defined.

(** *** Lists only grow *)

Lemma rules_extend_refl rules : rules_extend rules rules.
Proof.
  intros k [l|b] Hk; [exists []; by rewrite app_nil_r|by exists b].
Qed.

Lemma rules_extend_trans rules1 rules2 rules3 :
  rules_extend rules1 rules2 → rules_extend rules2 rules3 → rules_extend rules1 rules3.
Proof.
  intros H12 H23 k [l|b] Hk.
  - destruct (H12 _ _ Hk) as [l1 Hk2]. destruct (H23 _ _ Hk2) as [l2 Hk3].
    exists (l1 ++ l2). by rewrite (assoc_L (++)).
  - destruct (H12 _ _ Hk) as [b1 Hk2]. by destruct (H23 _ _ Hk2) as [b2 Hk3]; exists b2.
Qed.

Lemma rules_extend_append k e rules :
  (∀ b, rules !! k ≠ Some (VBool b)) →
  rules_extend rules (<[k := VList (list_at k rules ++ [e])]> rules).
Proof.
  intros Hnb k' v Hk'. destruct (decide (k' = k)) as [->|Hne].
  - rewrite lookup_insert_eq. unfold list_at. rewrite Hk'.
    destruct v as [l|b]; [by exists [e]|by destruct (Hnb b)].
  - rewrite lookup_insert_ne by done. by apply rules_extend_refl.
Qed.

Lemma rules_step_extend rules fs d rules' fs' :
  all_shaped (λ _ _, true) rules →
  rules_step (rules, fs) d = Ok (rules', fs') → rules_extend rules rules'.
Proof.
  intros Hwf. destruct d as [label content].
  intros [[-> _]|[(fv & _ & _ & _ & Hnb & ->)|[(b & Hb & _ & ->)|(_ & _ & _ & _ & Hnb & ->)]]]
    %rules_step_Ok.
  - apply rules_extend_refl.
  - by apply rules_extend_append.
  - intros k v Hk. destruct (decide (k = label)) as [->|Hne].
    + rewrite lookup_insert_eq. specialize (Hwf _ _ Hk). simpl in Hwf.
      destruct v as [l|b0]; [|by exists b].
      simpl in Hwf. by rewrite bool_decide_eq_true_2 in Hwf.
    + rewrite lookup_insert_ne by done. by apply rules_extend_refl.
  - by apply rules_extend_append.
Qed.

Lemma rules_steps_extend ds st st' :
  all_shaped (λ _ _, true) st.1 →
  for_each rules_step st ds = Ok st' → rules_extend st.1 st'.1.
Proof.
  revert st. induction ds as [|d ds IH]; intros [rules fs] Hwf; simpl.
  { intros [= <-]. apply rules_extend_refl. }
  destruct (rules_step (rules, fs) d) as [[rules1 fs1]|] eqn:Hstep; [|done]. simpl.
  intros Hrest. eapply rules_extend_trans; [by eapply rules_step_extend|].
  apply (IH (rules1, fs1)); [|done].
  pose proof (rules_step_shaped (λ _ _, true) rules fs d) as Hs.
  rewrite Hstep in Hs. by apply Hs.
Qed.

(** [X8].  Adding lines at the end of a file only adds to what
    [load_rules] returned: every key stays, a list keeps its elements and
    their order and may get more at its end, a boolean stays a boolean. *)
Theorem load_rules_append_only (f1 f2 : string) (rules1 rules : gmap string value) :
  load_rules f1 = Ok rules1 →
  load_rules (f1 +:+ String "010"%char f2) = Ok rules →
  rules_extend rules1 rules.
Proof.
  intros [fs1 H1]%load_rules_Ok [fs H]%load_rules_Ok.
  assert (parse_specfile (f1 +:+ String "010"%char f2)
          = parse_specfile f1 ++ parse_specfile f2) as Hcat by apply parse_lines_app.
  rewrite Hcat in H. unfold rules_loop in *. rewrite for_each_app, H1 in H. simpl in H.
  apply rules_steps_extend in H; [done|]. by eapply rules_loop_Ok_shaped.
Qed.

Lemma load_rules_append_only_witness :
  rules_extend
    (<["prune" := VBool true]> {[ "strip" := VList [EStr "//div"] ]})
    (<["prune" := VBool false]> {[ "strip" := VList [EStr "//div"; EStr "//span"] ]}).
Proof.
  apply (load_rules_append_only
           (Str.join_lines ["strip: //div"; "prune: yes"])
           (Str.join_lines ["prune: no"; "strip: //span"])).
  - vm_compute. reflexivity.
  - vm_compute. reflexivity.
Defined.

(** *** Where the pairs are *)

Lemma rules_loop_find_replace_length ds rules fs :
  rules_loop ds = Ok (rules, fs) →
  length (list_at "find_replace" rules) =
    length (contents_of "replace_string" ds) + length (contents_of "find_replace" ds).
Proof.
  revert rules fs.
  induction ds as [|[label content] ds IH] using rev_ind; intros rules' fs'.
  { by intros [= <- <-]. }
  intros (rules & fs & Hds & Hstep)%rules_loop_snoc_Ok.
  specialize (IH _ _ Hds). rewrite !contents_of_snoc, !length_app. cbn [fst snd].
  apply rules_step_Ok in Hstep
    as [[-> Hl]|[(fv & -> & _ & _ & _ & ->)|[(b & Hb & _ & ->)|(Ht & Hf & Hr & _ & _ & ->)]]].
  - rewrite !decide_False; [simpl; lia|by intros ->; destruct Hl..].
  - rewrite list_at_insert, length_app, decide_True, decide_False by done. simpl. lia.
  - apply boolean_props_prune in Hb as ->.
    rewrite list_at_insert_ne, !decide_False by done. simpl. lia.
  - rewrite (decide_False (P := label = "replace_string")) by done.
    destruct (decide (label = "find_replace")) as [->|Hne].
    + rewrite list_at_insert, length_app. simpl. lia.
    + rewrite list_at_insert_ne by done. simpl. lia.
Qed.

(** [X9].  In the dictionary [load_rules] returns, each [replace_string]
    directive has its pair in the list under [find_replace]: the pair of
    the non-empty content of the last [find_string] directive before it and
    of its own content, at the position given by the number of
    [replace_string] (and [find_replace]) directives before it.  The list
    has one element for each of these directives. *)
Theorem load_rules_pair_position
    (f : string) (pre : list (string * string)) (content : string)
    (post : list (string * string)) (rules : gmap string value) :
  parse_specfile f = pre ++ ("replace_string", content) :: post →
  load_rules f = Ok rules →
  ∃ fv, last (contents_of "find_string" pre) = Some fv ∧ fv ≠ "" ∧
        find_replace_of rules
          !! (length (contents_of "replace_string" pre)
              + length (contents_of "find_replace" pre))
          = Some (EPair fv content) ∧
        length (find_replace_of rules)
          = length (contents_of "replace_string" (parse_specfile f))
            + length (contents_of "find_replace" (parse_specfile f)).
Proof.
  intros Hf [fs H]%load_rules_Ok.
  pose proof (rules_loop_find_replace_length _ _ _ H) as Hlen.
  rewrite Hf in H. unfold rules_loop in H. rewrite for_each_app in H.
  destruct (for_each rules_step (∅, None) pre) as [[rules0 fs0]|] eqn:Hpre; [|done].
  simpl in H.
  destruct (rules_step (rules0, fs0) ("replace_string", content))
    as [[rules1 fs1]|] eqn:Hstep; [|done].
  simpl in H.
  assert (all_shaped (λ _ _, true) rules1) as Hwf1.
  { pose proof (rules_step_shaped (λ _ _, true) rules0 fs0 ("replace_string", content)) as Hs.
    rewrite Hstep in Hs. apply Hs; [done..|]. by eapply rules_loop_Ok_shaped. }
  apply rules_steps_extend in H; [|done]. simpl in H.
  pose proof (rules_loop_pending _ _ _ Hpre) as Hfs0.
  pose proof (rules_loop_find_replace_length _ _ _ Hpre) as Hlen0.
  apply rules_step_Ok in Hstep
    as [[_ [?|?]]|[(fv & _ & -> & Hfv & _ & ->)|[(b & Hb & _)|(_ & _ & ? & _)]]];
    try done.
  2:{ by apply boolean_props_prune in Hb. }
  exists fv. split; [done|]. split; [done|].
  destruct (H "find_replace" _ (lookup_insert_eq _ _ _)) as [l' Hl'].
  unfold find_replace_of at 1 2. fold (list_at "find_replace" rules).
  split; [|done]. unfold list_at at 1. rewrite Hl', <-Hlen0.
  rewrite <-(assoc_L (++)). by apply list_lookup_middle.
Qed.

Lemma load_rules_pair_position_witness :
  ∃ fv, last (contents_of "find_string"
                [("find_string", "a"); ("replace_string", "b"); ("find_string", "c")])
          = Some fv ∧ fv ≠ "" ∧
        find_replace_of {[ "find_replace" := VList [EPair "a" "b"; EPair "c" "d"] ]}
          !! (length (contents_of "replace_string"
                        [("find_string", "a"); ("replace_string", "b"); ("find_string", "c")])
              + length (contents_of "find_replace"
                          [("find_string", "a"); ("replace_string", "b"); ("find_string", "c")]))
          = Some (EPair fv "d") ∧
        length (find_replace_of {[ "find_replace" := VList [EPair "a" "b"; EPair "c" "d"] ]})
          = length (contents_of "replace_string"
                      (parse_specfile (Str.join_lines
                         ["find_string: a"; "replace_string: b"; "find_string: c";
                          "replace_string: d"])))
            + length (contents_of "find_replace"
                        (parse_specfile (Str.join_lines
                           ["find_string: a"; "replace_string: b"; "find_string: c";
                            "replace_string: d"]))).
Proof.
  apply (load_rules_pair_position
           (Str.join_lines
              ["find_string: a"; "replace_string: b"; "find_string: c"; "replace_string: d"])
           [("find_string", "a"); ("replace_string", "b"); ("find_string", "c")] "d" []).
  - reflexivity.
  - vm_compute. reflexivity.
Defined.

End RulesMore.

(** ** More on [load_testcases] *)

Section TestCasesMore.

Implicit Types (cases : list (gmap string tvalue)) (case : gmap string tvalue).
Implicit Types (ds : list (string * string)).

(** *** Directives that are not test directives do not matter *)

Lemma cases_steps_skip_rules cases ds :
  for_each cases_step cases (filter (λ d, is_test d = true) ds)
    = for_each cases_step cases ds.
Proof.
  revert cases. induction ds as [|[label content] ds IH]; intros cases; [done|].
  destruct (is_test (label, content)) eqn:Ht.
  - rewrite filter_cons_True by done. simpl.
    destruct (cases_step _ _); simpl; [apply IH|done].
  - rewrite filter_cons_False by (by rewrite Ht). simpl.
    rewrite cases_step_other by done. simpl. apply IH.
Qed.

(** [X10].  [load_testcases] only looks at test directives: two files with
    the same test directives give the same result, be it a list of cases or
    an error. *)
Theorem load_testcases_ignores_rules (f1 f2 : string) :
  filter (λ d, is_test d = true) (parse_specfile f1)
    = filter (λ d, is_test d = true) (parse_specfile f2) →
  load_testcases f1 = load_testcases f2.
Proof.
  intros H. unfold load_testcases, cases_loop.
  by rewrite <-(cases_steps_skip_rules _ (parse_specfile f1)), H, cases_steps_skip_rules.
Qed.

Lemma load_testcases_ignores_rules_witness :
  load_testcases (Str.join_lines
    ["strip: //div"; "test_url: http://x"; "prune: maybe"; "test_contains: Hello"])
  = load_testcases (Str.join_lines ["test_url: http://x"; "test_contains: Hello"]).
Proof. apply load_testcases_ignores_rules. reflexivity. Defined.

(** *** The shape of the cases *)

Lemma case_append_Ok k x case case' :
  case_append k x case = Ok case' →
  ∃ l, (case !! k = None ∧ l = [] ∨ case !! k = Some (TList l)) ∧
       case' = <[k := TList (l ++ [x])]> case.
Proof.
  unfold case_append. destruct (case !! k) as [[s|l]|]; intros [= <-].
  - exists l. auto.
  - exists []. auto.
Qed.

(** What a successful iteration has done. *)
Lemma cases_step_Ok cases label content cases' :
  cases_step cases (label, content) = Ok cases' →
  label = "test_url" ∧ cases' = cases ++ [<["test_url" := TStr content]> ∅] ∨
  Str.startswith label "test_" = false ∧ cases' = cases ∨
  label ≠ "test_url" ∧ Str.startswith label "test_" = true ∧
    ∃ before case l,
      cases = before ++ [case] ∧
      (case !! label = None ∧ l = [] ∨ case !! label = Some (TList l)) ∧
      cases' = before ++ [<[label := TList (l ++ [content])]> case].
Proof.
  destruct (decide (label = "test_url")) as [->|Hl].
  { rewrite cases_step_url. intros [= <-]. by left. }
  destruct (Str.startswith label "test_") eqn:Ht.
  - destruct (last cases) as [case|] eqn:Hlast; [|by rewrite cases_step_test, Hlast].
    apply last_Some in Hlast as [before ->].
    rewrite cases_step_test_snoc by done.
    destruct (case_append label content case) as [case'|] eqn:Ha; [|done].
    intros [= <-]. apply case_append_Ok in Ha as (l & Hl' & ->).
    right; right. do 2 (split; [done|]). by exists before, case, l.
  - rewrite cases_step_other by done. intros [= <-]. right; left. done.
Qed.

Lemma case_shaped_open content : case_shaped (<["test_url" := TStr content]> ∅).
Proof.
  split; [exists content; by rewrite lookup_insert_eq|].
  intros k v Hk Hne. by rewrite lookup_insert_ne, lookup_empty in Hk.
Qed.

Lemma case_shaped_append label content case l :
  label ≠ "test_url" → Str.startswith label "test_" = true →
  case_shaped case → case_shaped (<[label := TList (l ++ [content])]> case).
Proof.
  intros Hl Ht [[u Hu] Hkeys]. split.
  - exists u. by rewrite lookup_insert_ne.
  - intros k v Hk Hne. destruct (decide (k = label)) as [->|Hkl].
    + rewrite lookup_insert_eq in Hk. injection Hk as <-.
      split; [done|]. eexists; split; [done|].
      intros Hnil. by apply app_eq_nil in Hnil as [_ ?].
    + rewrite lookup_insert_ne in Hk by done. by apply Hkeys.
Qed.

Lemma cases_step_shaped cases d :
  Forall case_shaped cases →
  match cases_step cases d with
  | Ok cases' => Forall case_shaped cases'
  | Err e => e = InvalidSpec
  end.
Proof.
  intros Hwf. destruct d as [label content].
  destruct (cases_step cases (label, content)) as [cases'|e] eqn:Hstep.
  - apply cases_step_Ok in Hstep
      as [[-> ->]|[[_ ->]|(Hl & Ht & before & case & l & -> & _ & ->)]]; [|done|].
    + apply Forall_app. split; [done|]. apply Forall_singleton, case_shaped_open.
    + apply Forall_app in Hwf as [Hbefore [Hcase _]%Forall_cons].
      apply Forall_app. split; [done|].
      by apply Forall_singleton, case_shaped_append.
  - destruct (decide (label = "test_url")) as [->|Hl]; [by rewrite cases_step_url in Hstep|].
    destruct (Str.startswith label "test_") eqn:Ht;
      [|by rewrite cases_step_other in Hstep].
    destruct (last cases) as [case|] eqn:Hlast.
    + apply last_Some in Hlast as [before ->].
      rewrite cases_step_test_snoc in Hstep by done.
      apply Forall_app in Hwf as [_ [[_ Hkeys] _]%Forall_cons].
      unfold case_append in Hstep.
      destruct (case !! label) as [[s|l]|] eqn:Hk; [|done..].
      by destruct (Hkeys _ _ Hk Hl) as (_ & l & ? & _).
    + rewrite cases_step_test, Hlast in Hstep by done. by injection Hstep as <-.
Qed.

Lemma cases_loop_shaped ds :
  match cases_loop ds with
  | Ok cases => Forall case_shaped cases
  | Err e => e = InvalidSpec
  end.
Proof.
  unfold cases_loop.
  apply (for_each_inv (Forall case_shaped) (λ _, True)); [|by apply Forall_forall|done].
  intros cases d _. apply cases_step_shaped.
Qed.

(** [X11].  Every case [load_testcases] returns has a string under
    [test_url]; each of its other keys is a test label and holds a list
    that is not empty. *)
Theorem load_testcases_shape (f : string) (cases : list (gmap string tvalue)) :
  load_testcases f = Ok cases → Forall case_shaped cases.
Proof.
  unfold load_testcases. intros H.
  pose proof (cases_loop_shaped (parse_specfile f)) as Hs. by rewrite H in Hs.
Qed.

Lemma load_testcases_shape_witness :
  Forall case_shaped
    [ <["test_contains" := TList ["Hello"]]> {[ "test_url" := TStr "http://x" ]};
      ({[ "test_url" := TStr "http://y" ]} : gmap string tvalue) ].
Proof.
  apply (load_testcases_shape
           (Str.join_lines ["test_url: http://x"; "test_contains: Hello"; "test_url: http://y"])).
  vm_compute. reflexivity.
Defined.

(** [X12].  Neither loader raises anything but [InvalidSpec]: the
    [.append] calls always find a list. *)
Theorem loaders_raise_InvalidSpec_only (f : string) (e : exn) :
  load_rules f = Err e ∨ load_testcases f = Err e → e = InvalidSpec.
Proof.
  intros [H|H]; [by eapply load_rules_Err|].
  unfold load_testcases in H.
  pose proof (cases_loop_shaped (parse_specfile f)) as Hs. by rewrite H in Hs.
Qed.

Lemma loaders_raise_InvalidSpec_only_witness : InvalidSpec = InvalidSpec.
Proof.
  apply (loaders_raise_InvalidSpec_only
           (Str.join_lines ["test_contains: Hello"; "prune: yes"])).
  right. reflexivity.
Defined.

(** *** The order of the cases *)

Lemma cases_loop_urls ds cases :
  cases_loop ds = Ok cases →
  (λ case, case !! "test_url") <$> cases
    = (λ u, Some (TStr u)) <$> contents_of "test_url" ds.
Proof.
  revert cases. induction ds as [|[label content] ds IH] using rev_ind; intros cases'.
  { by intros [= <-]. }
  unfold cases_loop in *. rewrite for_each_snoc.
  destruct (for_each cases_step [] ds) as [cases|] eqn:Hds; [|done]. simpl.
  specialize (IH _ eq_refl). rewrite contents_of_snoc. cbn [fst snd].
  intros [[-> ->]|[[Ht ->]|(Hl & Ht & before & case & l & -> & _ & ->)]]%cases_step_Ok.
  - rewrite decide_True, !fmap_app, IH by done. simpl. by rewrite lookup_insert_eq.
  - rewrite decide_False, app_nil_r by (by intros ->). done.
  - rewrite decide_False, app_nil_r, <-IH, !fmap_app by done. simpl.
    by rewrite lookup_insert_ne.
Qed.

(** [X13].  The [test_url] values of the cases [load_testcases] returns
    are the contents of the [test_url] directives of the file, in file
    order: one case for each of them. *)
Theorem load_testcases_urls (f : string) (cases : list (gmap string tvalue)) :
  load_testcases f = Ok cases →
  (λ case, case !! "test_url") <$> cases
    = (λ u, Some (TStr u)) <$> contents_of "test_url" (parse_specfile f).
Proof. apply cases_loop_urls. Qed.

Lemma load_testcases_urls_witness :
  (λ case : gmap string tvalue, case !! "test_url") <$>
    [ <["test_contains" := TList ["Hello"]]> {[ "test_url" := TStr "http://x" ]};
      {[ "test_url" := TStr "http://y" ]} ]
  = (λ u, Some (TStr u)) <$>
      contents_of "test_url"
        (parse_specfile (Str.join_lines
           ["test_url: http://x"; "test_contains: Hello"; "test_url: http://y"])).
Proof.
  apply (load_testcases_urls
           (Str.join_lines ["test_url: http://x"; "test_contains: Hello"; "test_url: http://y"])).
  vm_compute. reflexivity.
Defined.

(** *** Files put one after the other *)

Lemma cases_step_frame before cases d cases' :
  cases_step cases d = Ok cases' →
  cases_step (before ++ cases) d = Ok (before ++ cases').
Proof.
  destruct d as [label content].
  intros [[-> ->]|[[Ht ->]|(Hl & Ht & before' & case & l & -> & Hcase & ->)]]%cases_step_Ok.
  - by rewrite cases_step_url, (assoc_L (++)).
  - by rewrite cases_step_other.
  - rewrite !(assoc_L (++)), cases_step_test_snoc by done.
    unfold case_append. by destruct Hcase as [[-> ->]| ->].
Qed.

Lemma cases_steps_frame before ds cases cases' :
  for_each cases_step cases ds = Ok cases' →
  for_each cases_step (before ++ cases) ds = Ok (before ++ cases').
Proof.
  revert cases. induction ds as [|d ds IH]; intros cases; simpl.
  { by intros [= <-]. }
  destruct (cases_step cases d) as [cases1|] eqn:Hstep; [|done]. simpl.
  rewrite (cases_step_frame _ _ _ _ Hstep). simpl. apply IH.
Qed.

(** [X14].  The cases of two texts joined by a newline are the cases of
    the first followed by the cases of the second, when each text has
    cases of its own; and an error in the first text is the error of the
    whole. *)
Theorem load_testcases_app (f1 f2 : string) :
  (∀ cases1 cases2,
     load_testcases f1 = Ok cases1 → load_testcases f2 = Ok cases2 →
     load_testcases (f1 +:+ String "010"%char f2) = Ok (cases1 ++ cases2)) ∧
  (∀ e, load_testcases f1 = Err e →
        load_testcases (f1 +:+ String "010"%char f2) = Err e).
Proof.
  assert (parse_specfile (f1 +:+ String "010"%char f2)
          = parse_specfile f1 ++ parse_specfile f2) as Hcat by apply parse_lines_app.
  unfold load_testcases, cases_loop. rewrite Hcat, for_each_app. split.
  - intros cases1 cases2 -> H2. simpl.
    rewrite <-(app_nil_r cases1) at 1. by apply cases_steps_frame.
  - by intros e ->.
Qed.

Lemma load_testcases_app_witness :
  load_testcases
    (Str.join_lines ["test_url: http://x"; "test_contains: Hello"]
       +:+ String "010"%char (Str.join_lines ["strip: //div"; "test_url: http://y"]))
  = Ok ([ <["test_contains" := TList ["Hello"]]> {[ "test_url" := TStr "http://x" ]} ]
          ++ [ {[ "test_url" := TStr "http://y" ]} ]).
Proof.
  apply (proj1 (load_testcases_app _ _)).
  - vm_compute. reflexivity.
  - vm_compute. reflexivity.
Defined.

End TestCasesMore.
